(** * libsast choice matcher: a shallow embedding of
      [libsast/core_matcher/choice_matcher.py] and the properties of its
      validation, per-rule file scan and finding aggregation. *)

From Stdlib Require Import ZArith QArith.QArith_base Ascii.
From stdpp Require Import base gmap sets list strings pretty.

Local Open Scope Z_scope.

(** ** Python values *)

(** The values a rule can hold: [None], integers, strings and lists (a rule's
    [choice] is a list of [token, label] pairs). *)
#[local] Unset Elimination Schemes.
Inductive pyval : Type :=
  | PNone
  | PInt (z : Z)
  | PStr (s : string)
  | PList (l : list pyval).
#[local] Set Elimination Schemes.

(** A rule is a dict with string keys. *)
Abbreviation rule := (gmap string pyval).

(** What [self.scan_rules] can contain: a dict, or anything else. *)
Inductive pyobj : Type :=
  | PDict (d : rule)
  | PNonDict (v : pyval).

(** Python truthiness, as used by [if x:] and [not x]. *)
Definition truthy (v : pyval) : bool :=
  match v with
  | PNone => false
  | PInt z => negb (z =? 0)
  | PStr s => negb (String.eqb s "")
  | PList l => match l with [] => false | _ => true end
  end.

(** [bool(d.get(k))] *)
Definition get_truthy (d : rule) (k : string) : bool :=
  match d !! k with
  | Some v => truthy v
  | None => false
  end.

(** Hashable values, the keys of [self.findings]. *)
Inductive pykey : Type :=
  | KNone
  | KInt (z : Z)
  | KStr (s : string).

Global Instance pykey_eq_dec : EqDecision pykey.
Proof. solve_decision. Defined.

Global Instance pykey_countable : Countable pykey.
Proof.
  refine (inj_countable'
    (λ k, match k with KNone => inl () | KInt z => inr (inl z) | KStr s => inr (inr s) end)
    (λ x, match x with inl _ => KNone | inr (inl z) => KInt z | inr (inr s) => KStr s end) _).
  by intros [].
Defined.

(** ** Exceptions *)

Inductive exn_kind : Type :=
  | InvalidRuleFormatError
  | TypeKeyMissingError
  | PatternKeyMissingError
  | RuleProcessingError
  | KeyError
  | IndexError
  | TypeError
  | AttributeError
  | ValueError
  | OtherError.

Global Instance exn_kind_eq_dec : EqDecision exn_kind.
Proof. solve_decision. Defined.

(** An exception: its class and message, and what Python attaches to it.
    [ExnDuring k msg context] was raised while [context] was being handled:
    a [raise] inside an [except] block sets [__context__].
    [ExnRemote k msg worker] is the exception [worker] of a pool task as the
    pool raises it again in the parent process: it has the class and the
    message of [worker], and as [__cause__] a [RemoteTraceback] whose text is
    the formatted traceback of [worker] with the chain of its contexts; that
    text is kept here as [worker] itself. *)
Inductive exn : Type :=
  | Exn (kind : exn_kind) (msg : string)
  | ExnDuring (kind : exn_kind) (msg : string) (context : exn)
  | ExnRemote (kind : exn_kind) (msg : string) (worker : exn).

Definition exn_class (e : exn) : exn_kind :=
  match e with
  | Exn kind _ | ExnDuring kind _ _ | ExnRemote kind _ _ => kind
  end.

Definition exn_msg (e : exn) : string :=
  match e with
  | Exn _ msg | ExnDuring _ msg _ | ExnRemote _ msg _ => msg
  end.

Global Instance exn_eq_dec : EqDecision exn.
Proof.
  unfold EqDecision, Decision.
  decide equality; first [apply exn_kind_eq_dec | apply String.string_dec].
Defined.

(** Pure code that may raise. *)
Global Instance exn_ret : MRet (sum exn) := λ _ a, inr a.
Global Instance exn_bind : MBind (sum exn) := λ _ _ f m,
  match m with
  | inl e => inl e
  | inr a => f a
  end.

(** ** Files and the trace of file accesses *)

(** A [pathlib.Path]: its text and its [.suffix]. *)
Record path : Type := Path { path_str : string; suffix : string }.

Global Instance path_eq_dec : EqDecision path.
Proof. solve_decision. Defined.

Inductive event : Type :=
  | EvStat (p : path)          (* sfile.stat() *)
  | EvReadText (p : path)      (* sfile.read_text(...) *)
  | EvFindChoices (p : path).  (* choices.find_choices(data of p, rule) *)

Global Instance event_eq_dec : EqDecision event.
Proof. solve_decision. Defined.

(** Code that touches files: the accesses made so far, and a value or the
    exception raised. *)
Definition IO (A : Type) : Type := list event * (exn + A).

Global Instance IO_ret : MRet IO := λ _ a, ([], inr a).
Global Instance IO_bind : MBind IO := λ _ _ f m,
  match m with
  | (t, inl e) => (t, inl e)
  | (t, inr a) => let '(t', r) := f a in (t ++ t', r)
  end.

Definition io_raise {A} (e : exn) : IO A := ([], inl e).
Definition io_lift {A} (r : exn + A) : IO A := ([], r).
Definition io_call {A} (ev : event) (r : exn + A) : IO A := ([ev], r).

(** [try: m  except Exception: h] *)
Definition try_except {A} (m : IO A) (h : exn → IO A) : IO A :=
  match m with
  | (t, inl e) => let '(t', r) := h e in (t ++ t', r)
  | (t, inr a) => (t, inr a)
  end.

Definition io_trace {A} (m : IO A) : list event := m.1.
Definition io_result {A} (m : IO A) : exn + A := m.2.

(** ** What the pattern matcher returns *)

(** [choices.find_choices] gives a set of tokens ([all] rules), a list of
    choice indices ([or] and [and] rules: positions in the rule's [choice],
    counted from 0), or some other object of which only the truth value
    matters here. *)
Inductive match_result : Type :=
  | MSet (s : gset string)
  | MList (l : list Z)
  | MOther (b : bool).

Definition match_truthy (m : match_result) : bool :=
  match m with
  | MSet s => negb (bool_decide (s = ∅))
  | MList l => match l with [] => false | _ => true end
  | MOther b => b
  end.

(** ** Collaborators outside this file *)

(** The file system, the helpers of [libsast.core_matcher.helpers] and
    [libsast.core_matcher.choices], and the two builtins whose result this
    module does not determine: [str.format] and the iteration order of a
    set.  [list_of_set] gives some listing of the elements, as a function of
    the set.  In CPython the order of [list(a_set)] also depends on how the
    set object was built and on the hash seed of the process that built it:
    two set objects with the same elements may be listed differently.  What
    is proved below of a listing holds for every listing, or is about one
    set object listed in one call of [add_finding]. *)
Record Externals : Type := {
  fs_stat : path → exn + Z;                      (* sfile.stat().st_size *)
  fs_read_text : path → exn + string;            (* sfile.read_text('utf-8', 'ignore') *)
  strip_comments : string → exn + string;
  strip_comments2 : string → exn + string;
  find_choices : string → rule → exn + match_result;
  str_format : string → pyval → exn + string;    (* template.format(arg) *)
  list_of_set : gset string → list string;       (* list(a_set) *)
  list_of_set_perm : ∀ s, list_of_set s ≡ₚ elements s
}.

(** ** [ChoiceMatcher.__init__] *)

Definition ascii_lower (c : ascii) : ascii :=
  let n := nat_of_ascii c in
  if ((65 <=? n)%nat && (n <=? 90)%nat)%bool then ascii_of_nat (n + 32) else c.

(** [str.lower] on ASCII text. *)
Fixpoint lower (s : string) : string :=
  match s with
  | EmptyString => EmptyString
  | String c s' => String (ascii_lower c) (lower s')
  end.

Record Options : Type := {
  choice_rules : list pyobj;
  opt_show_progress : bool;
  opt_alternative_path : option path;
  choice_extensions : option (list string)
}.

(** Modelled from the spec: [helpers.get_rules], the loader of rule files,
    is an external collaborator; the rules are taken as already loaded. *)
Definition get_rules (rules : list pyobj) : list pyobj := rules.

Record ChoiceMatcher : Type := {
  scan_rules : list pyobj;
  show_progress : bool;
  alternative_path : option path;
  exts : list string;
  findings : gmap pykey rule
}.

Definition init (options : Options) : ChoiceMatcher :=
  {| scan_rules := get_rules (choice_rules options);
     show_progress := opt_show_progress options;
     alternative_path := opt_alternative_path options;
     exts := match choice_extensions options with
             | Some (e :: es) => lower <$> (e :: es)
             | _ => []
             end;
     findings := ∅ |}.

(** ** [validate_rules] *)

Definition validate_rule (r : pyobj) : exn + () :=
  match r with
  | PNonDict _ =>
      inl (Exn InvalidRuleFormatError "Choice Matcher Rule format is invalid.")
  | PDict d =>
      if negb (get_truthy d "id") then
        inl (Exn TypeKeyMissingError "The rule is missing the key 'id'")
      else if negb (get_truthy d "type") then
        inl (Exn PatternKeyMissingError "The rule is missing the key 'type'")
      else if negb (get_truthy d "choice_type") then
        inl (Exn PatternKeyMissingError "The rule is missing the key 'choice_type'")
      else if negb (get_truthy d "selection") then
        inl (Exn PatternKeyMissingError "The rule is missing the key 'selection'")
      else if negb (get_truthy d "choice") then
        inl (Exn PatternKeyMissingError "The rule is missing the key 'choice'")
      else inr ()
  end.

Fixpoint validate_rules (rules : list pyobj) : exn + () :=
  match rules with
  | [] => inr ()
  | r :: rest => validate_rule r ;; validate_rules rest
  end.

(** ** Builtin operations the module relies on *)

(** [seq[i]] on a Python sequence: negative indices count from the end. *)
Definition py_index {A} (l : list A) (i : Z) : option A :=
  let n := Z.of_nat (length l) in
  if (0 <=? i) && (i <? n) then l !! Z.to_nat i
  else if (- n <=? i) && (i <? 0) then l !! Z.to_nat (n + i)
  else None.

(** [v[i]] for an integer [i]. *)
Definition getitem (v : pyval) (i : Z) : exn + pyval :=
  match v with
  | PList l =>
      match py_index l i with
      | Some x => inr x
      | None => inl (Exn IndexError "list index out of range")
      end
  | PStr s =>
      match py_index (String.list_ascii_of_string s) i with
      | Some c => inr (PStr (String c EmptyString))
      | None => inl (Exn IndexError "string index out of range")
      end
  | _ => inl (Exn TypeError "object is not subscriptable")
  end.

(** [d[k]] on a dict. *)
Definition dict_getitem (d : rule) (k : string) : exn + pyval :=
  match d !! k with
  | Some v => inr v
  | None => inl (Exn KeyError k)
  end.

(** [min(s)] on a set of integers. *)
Definition py_min (s : gset Z) : exn + Z :=
  match elements s with
  | [] => inl (Exn ValueError "min() arg is an empty sequence")
  | x :: xs => inr (foldr Z.min x xs)
  end.

(** [hash(v)], needed to use [v] as a dict key. *)
Definition to_key (v : pyval) : exn + pykey :=
  match v with
  | PNone => inr KNone
  | PInt z => inr (KInt z)
  | PStr s => inr (KStr s)
  | PList _ => inl (Exn TypeError "unhashable type: 'list'")
  end.

(** [template.format(arg)]; only a [str] has the method. *)
Definition py_format (E : Externals) (template arg : pyval) : exn + string :=
  match template with
  | PStr s => str_format E s arg
  | _ => inl (Exn AttributeError "object has no attribute 'format'")
  end.

(** [st_size / 1000 / 1000 > 5].  The source divides in floating point;
    both divisions are exact at the boundary 5000000 and rounding is
    monotone, so the comparison is the one of the exact quotients. *)
Definition too_big (st_size : Z) : bool :=
  negb (Qle_bool (inject_Z st_size / 1000 / 1000)%Q 5%Q).

(** ** [choice_matcher]: one rule on all files *)

(** The state of the loop over [scan_paths]: the two sets, and the dicts
    appended to [results].  Every appended dict holds the rule and
    references to the same two set objects, so [st_results] keeps the rule of
    each and the sets are read when the list is returned. *)
Record scan_state : Type := {
  st_matches : gset Z;
  st_all_matches : gset string;
  st_results : list rule
}.

Record match_dict : Type := {
  md_rule : rule;
  md_matches : gset Z;
  md_all_matches : gset string
}.

(** [self.exts and ext not in self.exts] *)
Definition ext_filtered (self : ChoiceMatcher) (ext : string) : bool :=
  match exts self with
  | [] => false
  | _ => negb (bool_decide (ext ∈ exts self))
  end.

(** The body of [for sfile in scan_paths]. *)
Definition scan_file (E : Externals) (self : ChoiceMatcher) (r : rule)
    (st : scan_state) (sfile : path) : IO scan_state :=
  let ext := lower (suffix sfile) in
  if ext_filtered self ext then mret st
  else
    st_size ← io_call (EvStat sfile) (fs_stat E sfile);
    if too_big st_size then mret st
    else
      data ← io_call (EvReadText sfile) (fs_read_text E sfile);
      data ← io_lift (if bool_decide (ext ∈ [".html"; ".xml"])
                      then strip_comments2 E data
                      else strip_comments E data);
      m ← io_call (EvFindChoices sfile) (find_choices E data r);
      if match_truthy m then
        let st :=
          match m with
          | MSet s =>
              {| st_matches := st_matches st;
                 st_all_matches := st_all_matches st ∪ s;
                 st_results := st_results st |}
          | MList (x :: _) =>
              {| st_matches := st_matches st ∪ {[x]};
                 st_all_matches := st_all_matches st;
                 st_results := st_results st |}
          | _ => st
          end in
        mret {| st_matches := st_matches st;
                st_all_matches := st_all_matches st;
                st_results := st_results st ++ [r] |}
      else mret st.

Fixpoint scan_files (E : Externals) (self : ChoiceMatcher) (r : rule)
    (st : scan_state) (scan_paths : list path) : IO scan_state :=
  match scan_paths with
  | [] => mret st
  | sfile :: rest =>
      st' ← scan_file E self r st sfile;
      scan_files E self r st' rest
  end.

(** [matches = set(); all_matches = set(); results = []] *)
Definition initial_state : scan_state :=
  {| st_matches := ∅; st_all_matches := ∅; st_results := [] |}.

(** The dicts of [results] as the caller reads them. *)
Definition match_dicts (st : scan_state) : list match_dict :=
  (λ r, {| md_rule := r;
           md_matches := st_matches st;
           md_all_matches := st_all_matches st |}) <$> st_results st.

(** [raise exceptions.RuleProcessingError('Rule processing error.')] in the
    [except Exception:] block, where the exception [e] is being handled. *)
Definition rule_processing_error (e : exn) : exn :=
  ExnDuring RuleProcessingError "Rule processing error." e.

Definition choice_matcher (E : Externals) (self : ChoiceMatcher)
    (scan_paths : list path) (r : rule) : IO (list match_dict) :=
  st ← try_except
         (scan_files E self r initial_state scan_paths)
         (λ e, io_raise (rule_processing_error e));
  mret (match_dicts st).

(** ** [get_meta] and [add_finding] *)

Definition reserved_keys : list string :=
  ["choice"; "message"; "id"; "type"; "choice_type"; "selection"; "else"].

Definition get_meta (r : rule) (selection : string) : exn + rule :=
  let meta_dict : rule := <["choice" := PStr selection]> ∅ in
  message ← dict_getitem r "message";
  let meta_dict := <["description" := message]> meta_dict in
  mret (map_fold
          (λ key value meta_dict,
             if bool_decide (key ∈ reserved_keys) then meta_dict
             else <[key := value]> meta_dict)
          meta_dict r).

(** [rule['choice'][min(matches)][1]] *)
Definition select_label (r : rule) (matches : gset Z) : exn + pyval :=
  choice ← dict_getitem r "choice";
  idx ← py_min matches;
  entry ← getitem choice idx;
  getitem entry 1.

(** The selection computed for one match dict; [None] is the [continue] of
    the last branch. *)
Definition selection_of (E : Externals) (md : match_dict) : exn + option string :=
  let all_matches := md_all_matches md in
  let matches := md_matches md in
  let r := md_rule md in
  if negb (bool_decide (all_matches = ∅)) then
    template ← dict_getitem r "selection";
    selection ← py_format E template (PList (PStr <$> list_of_set E all_matches));
    mret (Some selection)
  else if negb (bool_decide (matches = ∅)) then
    select ← select_label r matches;
    template ← dict_getitem r "selection";
    selection ← py_format E template select;
    mret (Some selection)
  else if get_truthy r "else" then
    template ← dict_getitem r "selection";
    default ← dict_getitem r "else";
    selection ← py_format E template default;
    mret (Some selection)
  else mret None.

(** The body of [for match_dict in res_list]. *)
Definition add_match_dict (E : Externals) (fs : gmap pykey rule)
    (md : match_dict) : exn + gmap pykey rule :=
  sel ← selection_of E md;
  match sel with
  | None => mret fs
  | Some selection =>
      meta ← get_meta (md_rule md) selection;
      id ← dict_getitem (md_rule md) "id";
      key ← to_key id;
      mret (<[key := meta]> fs)
  end.

Fixpoint add_res_list (E : Externals) (fs : gmap pykey rule)
    (res_list : list match_dict) : exn + gmap pykey rule :=
  match res_list with
  | [] => mret fs
  | md :: rest => fs' ← add_match_dict E fs md; add_res_list E fs' rest
  end.

Fixpoint add_finding (E : Externals) (fs : gmap pykey rule)
    (results : list (list match_dict)) : exn + gmap pykey rule :=
  match results with
  | [] => mret fs
  | res_list :: rest =>
      match res_list with
      | [] => add_finding E fs rest
      | _ => fs' ← add_res_list E fs res_list; add_finding E fs' rest
      end
  end.

(** ** [scan] *)

(** Modelled from the spec: [common.ProgressBar(...).progrees_loop] only
    reports progress; it yields the rules it is given, in order. *)
Definition progrees_loop (rules : list pyobj) : list pyobj := rules.

(** [v == s] for a string literal [s]. *)
Definition is_str (v : pyval) (s : string) : bool :=
  match v with
  | PStr s' => String.eqb s' s
  | _ => false
  end.

(** The loop that builds [choice_args]: a rule whose type is not ['code']
    scans only the alternative path, when one is configured. *)
Fixpoint build_choice_args (self : ChoiceMatcher) (paths : list path)
    (rules : list pyobj) : exn + list (list path * rule) :=
  match rules with
  | [] => mret []
  | PNonDict _ :: _ => inl (Exn TypeError "indices must be integers")
  | PDict r :: rest =>
      ty ← dict_getitem r "type";
      let scan_paths :=
        match negb (is_str ty "code"), alternative_path self with
        | true, Some alt => [alt]
        | _, _ => paths
        end in
      args ← build_choice_args self paths rest;
      mret ((scan_paths, r) :: args)
  end.

(** What the pool does with the exception of a task before it raises it in
    the parent ([multiprocessing.pool.rebuild_exc]). *)
Definition rebuild_exc (worker : exn) : exn :=
  ExnRemote (exn_class worker) (exn_msg worker) worker.

(** The tasks as the workers run them ([multiprocessing.pool.mapstar]): the
    results in the order of the tasks, or the exception of a task.
    The pool cuts the tasks into chunks of ten and runs the chunks in
    parallel worker processes; the tasks are run here one after the other.
    The results are the pool's, which returns them in the order of the
    tasks, and so are the accesses each task makes.  The order in which the
    accesses of different tasks follow each other in the trace, and which
    failing task is reported when several fail, are not the pool's: nothing
    below is stated about either. *)
Fixpoint mapstar (E : Externals) (self : ChoiceMatcher)
    (choice_args : list (list path * rule)) : IO (list (list match_dict)) :=
  match choice_args with
  | [] => mret []
  | (scan_paths, r) :: rest =>
      res ← choice_matcher E self scan_paths r;
      ress ← mapstar E self rest;
      mret (res :: ress)
  end.

(** [pool.starmap(self.choice_matcher, choice_args)]: the results, or the
    exception of a task as the pool raises it in the parent. *)
Definition starmap (E : Externals) (self : ChoiceMatcher)
    (choice_args : list (list path * rule)) : IO (list (list match_dict)) :=
  try_except (mapstar E self choice_args) (λ e, io_raise (rebuild_exc e)).

(** [self.scan_rules = rules] and [self.findings = fs] *)
Definition set_scan_rules (self : ChoiceMatcher) (rules : list pyobj) : ChoiceMatcher :=
  {| scan_rules := rules;
     show_progress := show_progress self;
     alternative_path := alternative_path self;
     exts := exts self;
     findings := findings self |}.

Definition set_findings (self : ChoiceMatcher) (fs : gmap pykey rule) : ChoiceMatcher :=
  {| scan_rules := scan_rules self;
     show_progress := show_progress self;
     alternative_path := alternative_path self;
     exts := exts self;
     findings := fs |}.

(** [scan] returns [None] (bare [return]) or [self.findings]; the second
    component is [self] after the call. *)
Definition scan (E : Externals) (self : ChoiceMatcher) (paths : list path)
    : IO (option (gmap pykey rule) * ChoiceMatcher) :=
  match scan_rules self, paths with
  | [], _ | _, [] => mret (None, self)
  | _, _ =>
      io_lift (validate_rules (scan_rules self));;
      let self :=
        if show_progress self
        then set_scan_rules self (progrees_loop (scan_rules self))
        else self in
      choice_args ← io_lift (build_choice_args self paths (scan_rules self));
      results ← starmap E self choice_args;
      fs ← io_lift (add_finding E (findings self) results);
      let self := set_findings self fs in
      mret (Some (findings self), self)
  end.

(** ** A small concrete world, for the examples *)

Module Demo.

(** [needle in hay] *)
Fixpoint contains (needle hay : string) : bool :=
  String.prefix needle hay ||
  match hay with
  | EmptyString => false
  | String _ rest => contains needle rest
  end.

(** A stand-in for [str(v)] / [repr(v)], without escapes. *)
Fixpoint py_str (quote : bool) (v : pyval) : string :=
  match v with
  | PNone => "None"
  | PInt z => pretty z
  | PStr s => if quote then "'" +:+ s +:+ "'" else s
  | PList l =>
      "[" +:+
      (fix items (l : list pyval) : string :=
         match l with
         | [] => ""
         | [x] => py_str true x
         | x :: rest => py_str true x +:+ ", " +:+ items rest
         end) l +:+ "]"
  end.

(** A stand-in for [str.format] with one argument: the first [{}] of the
    template is replaced; a template without one is returned as it is. *)
Fixpoint format (template : string) (arg : string) : string :=
  match template with
  | String "{"%char (String "}"%char rest) => arg +:+ rest
  | String c rest => String c (format rest arg)
  | EmptyString => EmptyString
  end.

(** A stand-in for [find_choices]: the position of the first choice whose
    token occurs in the text ([or]), or the labels of all choices whose
    token occurs ([all]). *)
Fixpoint first_index (data : string) (choice : list pyval) (idx : Z) : list Z :=
  match choice with
  | PList (PStr token :: _) :: rest =>
      if contains token data then [idx] else first_index data rest (idx + 1)
  | _ :: rest => first_index data rest (idx + 1)
  | [] => []
  end.

Fixpoint all_labels (data : string) (choice : list pyval) : gset string :=
  match choice with
  | PList [PStr token; PStr label] :: rest =>
      (if contains token data then {[label]} else ∅) ∪ all_labels data rest
  | _ :: rest => all_labels data rest
  | [] => ∅
  end.

Definition find (data : string) (r : rule) : exn + match_result :=
  match r !! "choice", r !! "choice_type" with
  | Some (PList choice), Some (PStr "all") => inr (MSet (all_labels data choice))
  | Some (PList choice), Some _ => inr (MList (first_index data choice 0))
  | _, _ => inl (Exn KeyError "choice")
  end.

(** Files: a table from path to size and text; other paths do not exist. *)
Definition file_table : Type := list (path * (Z * option string)).

Definition lookup_file (files : file_table) (p : path) : option (Z * option string) :=
  snd <$> list_find (λ e, e.1 = p) files ≫= λ e, Some e.2.

Definition no_such_file : exn := Exn OtherError "No such file or directory".

Definition world (files : file_table) : Externals :=
  {| fs_stat := λ p, match lookup_file files p with
                     | Some (size, _) => inr size
                     | None => inl no_such_file
                     end;
     fs_read_text := λ p, match lookup_file files p with
                          | Some (_, Some text) => inr text
                          | _ => inl no_such_file
                          end;
     strip_comments := inr;
     strip_comments2 := inr;
     find_choices := find;
     str_format := λ template arg, inr (format template (py_str false arg));
     list_of_set := elements;
     list_of_set_perm := λ s, reflexivity (elements s) |}.

(** The same world, with sets listed the other way round. *)
Definition world_reversed (files : file_table) : Externals :=
  {| fs_stat := fs_stat (world files);
     fs_read_text := fs_read_text (world files);
     strip_comments := inr;
     strip_comments2 := inr;
     find_choices := find;
     str_format := str_format (world files);
     list_of_set := λ s, reverse (elements s);
     list_of_set_perm := λ s, reverse_Permutation (elements s) |}.

Definition java (name : string) : path := Path (name +:+ ".java") ".java".

(** The rule of the end-to-end scenario of the specification. *)
Definition sdk_rule : rule :=
  list_to_map
    [("id", PStr "sdk"); ("type", PStr "code"); ("choice_type", PStr "or");
     ("message", PStr "Target SDK");
     ("selection", PStr "Target SDK: {}");
     ("choice", PList [PList [PStr "23"; PStr "Marshmallow"];
                       PList [PStr "21"; PStr "Lollipop"]])].

Definition sdk_rule_with_else : rule := <["else" := PStr "Unknown"]> sdk_rule.

Definition kotlin (name : string) : path := Path (name +:+ ".kt") ".kt".

(** Two sources that name an SDK level, one that names none, one of 6 MB
    and a Kotlin file. *)
Definition a_java : path := java "a".
Definition b_java : path := java "b".
Definition c_java : path := java "c".
Definition big_java : path := java "big".
Definition d_kt : path := kotlin "d".

Definition files : file_table :=
  [(a_java, (16, Some "targetSdk = 21"));
   (b_java, (16, Some "targetSdk = 23"));
   (c_java, (12, Some "no sdk level"));
   (big_java, (6000000, Some "targetSdk = 23"));
   (d_kt, (16, Some "targetSdk = 23"))].

Definition options_of (rules : list rule) (extensions : option (list string)) : Options :=
  {| choice_rules := PDict <$> rules;
     opt_show_progress := false;
     opt_alternative_path := None;
     choice_extensions := extensions |}.

(** A rule that is not of type ['code'], and options with an alternative
    path. *)
Definition manifest_rule : rule := <["type" := PStr "manifest"]> sdk_rule.

Definition options_alt (rules : list rule) (alt : path) : Options :=
  {| choice_rules := PDict <$> rules;
     opt_show_progress := true;
     opt_alternative_path := Some alt;
     choice_extensions := None |}.

(** The [choice] of the finding stored under [id], if [scan] returned
    one. *)
Definition choice_of (x : IO (option (gmap pykey rule) * ChoiceMatcher))
    (id : string) : option pyval :=
  match io_result x with
  | inr (Some fs, _) => fs !! KStr id ≫= (.!! "choice")
  | _ => None
  end.

End Demo.

(** ** Notions used to state the properties *)

(** What one file contributes to the loop state: the matcher's result when
    the file is scanned and the result is truthy. *)
Definition file_match (E : Externals) (self : ChoiceMatcher) (r : rule)
    (sfile : path) : IO (option match_result) :=
  let ext := lower (suffix sfile) in
  if ext_filtered self ext then mret None
  else
    st_size ← io_call (EvStat sfile) (fs_stat E sfile);
    if too_big st_size then mret None
    else
      data ← io_call (EvReadText sfile) (fs_read_text E sfile);
      data ← io_lift (if bool_decide (ext ∈ [".html"; ".xml"])
                      then strip_comments2 E data
                      else strip_comments E data);
      m ← io_call (EvFindChoices sfile) (find_choices E data r);
      mret (if match_truthy m then Some m else None).

Definition apply_match (r : rule) (st : scan_state)
    (m : option match_result) : scan_state :=
  match m with
  | None => st
  | Some m =>
      {| st_matches := match m with
                       | MList (x :: _) => st_matches st ∪ {[x]}
                       | _ => st_matches st
                       end;
         st_all_matches := match m with
                           | MSet s => st_all_matches st ∪ s
                           | _ => st_all_matches st
                           end;
         st_results := st_results st ++ [r] |}
  end.

(** Two outcomes agree: both raise, or both return the same value. *)
Definition res_equiv {A} (x y : exn + A) : Prop :=
  match x, y with
  | inl _, inl _ => True
  | inr a, inr b => a = b
  | _, _ => False
  end.

(** Two outcomes agree up to what is attached to the exception: both return
    the same value, or both raise an exception of the same class with the
    same message. *)
Definition same_outcome {A} (x y : exn + A) : Prop :=
  match x, y with
  | inl e, inl e' => exn_class e = exn_class e' ∧ exn_msg e = exn_msg e'
  | inr a, inr b => a = b
  | _, _ => False
  end.



(** Two worlds with the same files, helpers, matcher and [str.format]; they
    may list sets in different orders. *)
Definition same_but_listing (E E' : Externals) : Prop :=
  (∀ p, fs_stat E' p = fs_stat E p) ∧
  (∀ p, fs_read_text E' p = fs_read_text E p) ∧
  (∀ data, strip_comments E' data = strip_comments E data) ∧
  (∀ data, strip_comments2 E' data = strip_comments2 E data) ∧
  (∀ data r, find_choices E' data r = find_choices E data r) ∧
  (∀ template arg, str_format E' template arg = str_format E template arg).

(** A file the loop passes over: its extension is outside the allow-list,
    or its size is above the threshold. *)
Definition skipped (E : Externals) (self : ChoiceMatcher) (sfile : path) : Prop :=
  ext_filtered self (lower (suffix sfile)) = true ∨
  ∃ st_size, fs_stat E sfile = inr st_size ∧ too_big st_size = true.

(** The accesses the loop can make: only files that pass the extension
    filter are looked at, and only files that are not too big are read and
    given to the matcher. *)
Definition event_ok (E : Externals) (self : ChoiceMatcher) (ev : event) : Prop :=
  match ev with
  | EvStat p => ext_filtered self (lower (suffix p)) = false
  | EvReadText p | EvFindChoices p =>
      ext_filtered self (lower (suffix p)) = false ∧
      ∃ st_size, fs_stat E p = inr st_size ∧ too_big st_size = false
  end.


(** The five fields [validate_rules] requires, in the order it checks
    them. *)
Definition required_fields : list string :=
  ["id"; "type"; "choice_type"; "selection"; "choice"].

Definition well_formed (r : pyobj) : Prop :=
  ∃ d, r = PDict d ∧ ∀ k, k ∈ required_fields → get_truthy d k = true.

(** [k] is the only required field the rule lacks. *)
Definition missing_only (d : rule) (k : string) : Prop :=
  get_truthy d k = false ∧
  ∀ k', k' ∈ required_fields → k' ≠ k → get_truthy d k' = true.

(** The exception class raised for a missing field. *)
Definition missing_kind (k : string) : exn_kind :=
  if decide (k = "id") then TypeKeyMissingError else PatternKeyMissingError.

Definition raised_kind {A} (x : exn + A) : option exn_kind :=
  match x with
  | inl e => Some (exn_class e)
  | inr _ => None
  end.

(** [k] is the key under which a rule of [rules] is stored. *)
Definition rule_id_key (rules : list pyobj) (k : pykey) : Prop :=
  ∃ d id, PDict d ∈ rules ∧ d !! "id" = Some id ∧ to_key id = inr k.

(** [fs'] is [fs] with the finding of rule [r] stored under the rule's id,
    its [choice] being the rule's selection formatted with [arg]. *)
Definition finding_added (E : Externals) (r : rule) (arg : pyval)
    (fs fs' : gmap pykey rule) : Prop :=
  ∃ template selection id key meta,
    r !! "selection" = Some (PStr template) ∧
    str_format E template arg = inr selection ∧
    r !! "id" = Some id ∧ to_key id = inr key ∧
    get_meta r selection = inr meta ∧
    meta !! "choice" = Some (PStr selection) ∧
    fs' = <[key := meta]> fs.

(** The resolution of an [or]/[and] rule in the words of the
    specification: among the matched indices that exist in [choice], the
    numerically smallest, and the label found there. *)
Definition spec_smallest_index (choice : list pyval) (matches : gset Z) : option Z :=
  match filter (λ i, 0 ≤ i < Z.of_nat (length choice)) (elements matches) with
  | [] => None
  | i :: rest => Some (foldr Z.min i rest)
  end.

Definition spec_label (r : rule) (matches : gset Z) : option pyval :=
  match r !! "choice" with
  | Some (PList choice) =>
      idx ← spec_smallest_index choice matches;
      entry ← choice !! Z.to_nat idx;
      match getitem entry 1 with
      | inr label => Some label
      | inl _ => None
      end
  | _ => None
  end.

(** The file an access is made to. *)
Definition event_path (ev : event) : path :=
  match ev with
  | EvStat p | EvReadText p | EvFindChoices p => p
  end.

(** The order of the accesses: a file is read right after its [stat], and
    given to the matcher right after it was read. *)
Definition preceded_ok (before : list event) (ev : event) : Prop :=
  match ev with
  | EvStat _ => True
  | EvReadText p => last before = Some (EvStat p)
  | EvFindChoices p => last before = Some (EvReadText p)
  end.

Definition well_ordered (trace : list event) : Prop :=
  ∀ before ev after, trace = before ++ ev :: after → preceded_ok before ev.

(** * Properties *)

(** ** The [IO] and exception monads *)

Lemma io_result_bind {A B} (m : IO A) (k : A → IO B) :
  io_result (m ≫= k) = io_result m ≫= (λ a, io_result (k a)).
Proof.
  destruct m as [t [e|a]]; simpl; [done|]. by destruct (k a).
Qed.

Lemma io_trace_bind {A B} (m : IO A) (k : A → IO B) :
  io_trace (m ≫= k) =
  io_trace m ++ match io_result m with
                | inl _ => []
                | inr a => io_trace (k a)
                end.
Proof.
  destruct m as [t [e|a]]; simpl.
  - by rewrite app_nil_r.
  - by destruct (k a).
Qed.

Lemma exn_bind_inr {A B} (a : A) (k : A → exn + B) : inr a ≫= k = k a.
Proof. done. Qed.

Lemma io_result_lift {A} (r : exn + A) : io_result (io_lift r) = r.
Proof. done. Qed.

Lemma io_trace_lift {A} (r : exn + A) : io_trace (io_lift r) = [].
Proof. done. Qed.

(** ** The size threshold *)

Lemma too_big_spec (st_size : Z) : too_big st_size = true ↔ 5000000 < st_size.
Proof.
  unfold too_big. rewrite negb_true_iff, <- not_true_iff_false, Qle_bool_iff.
  unfold Qle, Qdiv, Qmult, Qinv, inject_Z. simpl. lia.
Qed.

Lemma too_big_false (st_size : Z) : too_big st_size = false ↔ st_size ≤ 5000000.
Proof.
  rewrite <- not_true_iff_false, too_big_spec. lia.
Qed.

(** ** The loop over the files *)

Ltac io_unfold :=
  unfold mbind, mret, IO_bind, IO_ret, exn_bind, exn_ret,
    io_call, io_lift, io_raise, try_except, io_result, io_trace in *.

Ltac trace_ok :=
  simpl; repeat (constructor; [assumption|]); constructor.

Section scan_files.
Context (E : Externals) (self : ChoiceMatcher) (r : rule).

Lemma scan_file_eq st sfile :
  scan_file E self r st sfile =
  file_match E self r sfile ≫= λ m, mret (apply_match r st m).
Proof.
  unfold scan_file, file_match.
  destruct (ext_filtered self _); [done|].
  io_unfold. destruct (fs_stat E sfile) as [e|sz]; [done|].
  destruct (too_big sz); [done|].
  destruct (fs_read_text E sfile) as [e|data]; [done|].
  destruct (if bool_decide _ then _ else _) as [e|data']; [done|].
  destruct (find_choices E data' r) as [e|m]; [done|].
  simpl. destruct m as [s|[|x l]|[]]; simpl; try done.
  by destruct (bool_decide (s = ∅)).
Qed.

Lemma apply_match_comm st m1 m2 :
  apply_match r (apply_match r st m1) m2 =
  apply_match r (apply_match r st m2) m1.
Proof.
  destruct m1 as [m1|], m2 as [m2|]; simpl; try done.
  f_equal.
  - destruct m1 as [?|[|??]|?], m2 as [?|[|??]|?]; try done.
    rewrite <- !(assoc_L (∪)). f_equal. apply (comm_L (∪)).
  - destruct m1 as [?|[|??]|?], m2 as [?|[|??]|?]; try done.
    rewrite <- !(assoc_L (∪)). f_equal. apply (comm_L (∪)).
Qed.

Lemma scan_file_result st sfile :
  io_result (scan_file E self r st sfile) =
  m ← io_result (file_match E self r sfile); mret (apply_match r st m).
Proof. by rewrite scan_file_eq, io_result_bind. Qed.

Lemma scan_files_result_cons st sfile rest :
  io_result (scan_files E self r st (sfile :: rest)) =
  m ← io_result (file_match E self r sfile);
  io_result (scan_files E self r (apply_match r st m) rest).
Proof.
  simpl. rewrite io_result_bind, scan_file_result.
  by destruct (io_result (file_match E self r sfile)).
Qed.

Lemma scan_files_swap st f g rest :
  res_equiv (io_result (scan_files E self r st (f :: g :: rest)))
            (io_result (scan_files E self r st (g :: f :: rest))).
Proof.
  rewrite (scan_files_result_cons st f), (scan_files_result_cons st g).
  destruct (io_result (file_match E self r f)) as [e1|m1] eqn:Hf,
           (io_result (file_match E self r g)) as [e2|m2] eqn:Hg;
    simpl; rewrite ?io_result_bind, ?scan_file_result, ?Hf, ?Hg; simpl;
    try done.
  rewrite apply_match_comm.
  by destruct (io_result (scan_files _ _ _ _ rest)).
Qed.

Lemma res_equiv_trans {A} (x y z : exn + A) :
  res_equiv x y → res_equiv y z → res_equiv x z.
Proof. destruct x, y, z; simpl; intros; try done; congruence. Qed.

(** The final state of the loop does not depend on the order of the
    files. *)
Lemma scan_files_perm st l l' :
  l ≡ₚ l' →
  res_equiv (io_result (scan_files E self r st l))
            (io_result (scan_files E self r st l')).
Proof.
  intros Hp. revert st.
  induction Hp as [|x l l' _ IH|x y l|l l' l'' _ IH1 _ IH2]; intros st.
  - done.
  - rewrite !scan_files_result_cons.
    destruct (io_result (file_match E self r x)); simpl; [done|apply IH].
  - apply scan_files_swap.
  - eapply res_equiv_trans; [apply IH1|apply IH2].
Qed.

Lemma choice_matcher_result scan_paths :
  io_result (choice_matcher E self scan_paths r) =
  match io_result (scan_files E self r initial_state scan_paths) with
  | inl e => inl (rule_processing_error e)
  | inr st => inr (match_dicts st)
  end.
Proof.
  unfold choice_matcher.
  destruct (scan_files _ _ _ _ _) as [t [e|st]]; io_unfold; simpl; done.
Qed.

Lemma choice_matcher_perm l l' :
  l ≡ₚ l' →
  same_outcome (io_result (choice_matcher E self l r))
               (io_result (choice_matcher E self l' r)).
Proof.
  intros Hp. rewrite !choice_matcher_result.
  pose proof (scan_files_perm initial_state l l' Hp) as H.
  destruct (io_result (scan_files _ _ _ _ l)),
           (io_result (scan_files _ _ _ _ l')); simpl in H; try done.
  by subst.
Qed.

(** *** Files that are passed over *)

Lemma file_match_skipped sfile :
  skipped E self sfile → file_match E self r sfile = ([], inr None) ∨
                         file_match E self r sfile = ([EvStat sfile], inr None).
Proof.
  unfold file_match. intros [Hext|(sz & Hsz & Hbig)].
  - rewrite Hext. by left.
  - destruct (ext_filtered self _); [by left|right].
    io_unfold. by rewrite Hsz, Hbig.
Qed.

Lemma scan_files_skip st l1 sfile l2 :
  skipped E self sfile →
  io_result (scan_files E self r st (l1 ++ sfile :: l2)) =
  io_result (scan_files E self r st (l1 ++ l2)).
Proof.
  intros Hskip. revert st. induction l1 as [|f l1 IH]; intros st.
  - rewrite !app_nil_l, scan_files_result_cons.
    by destruct (file_match_skipped sfile Hskip) as [-> | ->].
  - rewrite <- !app_comm_cons, !scan_files_result_cons.
    destruct (io_result (file_match E self r f)); simpl; [done|apply IH].
Qed.

Lemma choice_matcher_skip l1 sfile l2 :
  skipped E self sfile →
  io_result (choice_matcher E self (l1 ++ sfile :: l2) r) =
  io_result (choice_matcher E self (l1 ++ l2) r).
Proof.
  intros Hskip. by rewrite !choice_matcher_result, scan_files_skip.
Qed.

(** *** The accesses made *)

Lemma file_match_trace_ok sfile :
  Forall (event_ok E self) (io_trace (file_match E self r sfile)).
Proof.
  unfold file_match.
  destruct (ext_filtered self _) eqn:Hext; [constructor|].
  assert (event_ok E self (EvStat sfile)) as Hstat by done.
  io_unfold. destruct (fs_stat E sfile) as [e|sz] eqn:Hsz; [trace_ok|].
  destruct (too_big sz) eqn:Hbig; [trace_ok|].
  assert (event_ok E self (EvReadText sfile) ∧
          event_ok E self (EvFindChoices sfile)) as [??].
  { split; (split; [done|by exists sz]). }
  destruct (fs_read_text E sfile) as [e|data]; [trace_ok|]; simpl.
  destruct (if bool_decide _ then _ else _) as [e|data']; [trace_ok|]; simpl.
  destruct (find_choices E data' r) as [e|m]; trace_ok.
Qed.

Lemma scan_file_trace st sfile :
  io_trace (scan_file E self r st sfile) = io_trace (file_match E self r sfile).
Proof.
  rewrite scan_file_eq, io_trace_bind.
  destruct (io_result _); simpl; by rewrite app_nil_r.
Qed.

Lemma scan_files_trace_ok st scan_paths :
  Forall (event_ok E self) (io_trace (scan_files E self r st scan_paths)).
Proof.
  revert st. induction scan_paths as [|sfile rest IH]; intros st; simpl.
  - constructor.
  - rewrite io_trace_bind, scan_file_trace. apply Forall_app. split.
    + apply file_match_trace_ok.
    + destruct (io_result _); [constructor|apply IH].
Qed.

Lemma choice_matcher_trace scan_paths :
  io_trace (choice_matcher E self scan_paths r) =
  io_trace (scan_files E self r initial_state scan_paths).
Proof.
  unfold choice_matcher.
  destruct (scan_files _ _ _ _ _) as [t [e|st]]; io_unfold; simpl;
    by rewrite !app_nil_r.
Qed.

Lemma choice_matcher_trace_ok scan_paths :
  Forall (event_ok E self) (io_trace (choice_matcher E self scan_paths r)).
Proof. rewrite choice_matcher_trace. apply scan_files_trace_ok. Qed.

(** With no extension filter, a loop that completes has looked at every
    file. *)
Lemma scan_files_stats_all st st' scan_paths :
  (∀ f, ext_filtered self (lower (suffix f)) = false) →
  io_result (scan_files E self r st scan_paths) = inr st' →
  ∀ f, f ∈ scan_paths → EvStat f ∈ io_trace (scan_files E self r st scan_paths).
Proof.
  intros Hno. revert st.
  induction scan_paths as [|sfile rest IH]; intros st Hres f Hf.
  - by apply elem_of_nil in Hf.
  - simpl in *. rewrite io_result_bind in Hres.
    rewrite io_trace_bind, scan_file_trace. apply elem_of_app.
    destruct (io_result (scan_file E self r st sfile)) as [e|st1] eqn:H1;
      [done|simpl in Hres].
    apply elem_of_cons in Hf as [->|Hf]; [left|right; by eapply IH].
    unfold file_match. rewrite Hno. io_unfold.
    destruct (fs_stat E sfile) as [?|sz]; [by left|].
    destruct (too_big sz); [by left|].
    destruct (fs_read_text E sfile); [by left|]; simpl.
    destruct (if bool_decide _ then _ else _); [by left|]; simpl.
    destruct (find_choices _ _ _); by left.
Qed.

(** *** Exceptions *)



End scan_files.

(** ** The pool *)

Lemma starmap_trace E self choice_args :
  io_trace (starmap E self choice_args) = io_trace (mapstar E self choice_args).
Proof.
  unfold starmap, try_except, io_raise, io_trace.
  destruct (mapstar E self choice_args) as [t [e|x]]; simpl; [|done].
  by rewrite app_nil_r.
Qed.

Lemma starmap_result E self choice_args :
  io_result (starmap E self choice_args) =
  match io_result (mapstar E self choice_args) with
  | inl e => inl (rebuild_exc e)
  | inr results => inr results
  end.
Proof.
  unfold starmap, try_except, io_raise, io_result.
  by destruct (mapstar E self choice_args) as [t [e|x]].
Qed.

Lemma starmap_inr E self choice_args results :
  io_result (starmap E self choice_args) = inr results ↔
  io_result (mapstar E self choice_args) = inr results.
Proof.
  rewrite starmap_result.
  destruct (io_result (mapstar E self choice_args)); naive_solver.
Qed.

Lemma starmap_singleton_inr E self scan_paths (r : rule) res :
  io_result (choice_matcher E self scan_paths r) = inr res →
  io_result (starmap E self [(scan_paths, r)]) = inr [res].
Proof.
  intros H. rewrite starmap_result. cbn [mapstar].
  by rewrite io_result_bind, H.
Qed.

(** ** [scan] as a whole *)

Section scan.
Context (E : Externals).

Lemma scan_eq self paths :
  scan E self paths =
  match scan_rules self, paths with
  | [], _ | _, [] => mret (None, self)
  | _, _ =>
      io_lift (validate_rules (scan_rules self));;
      choice_args ← io_lift (build_choice_args self paths (scan_rules self));
      results ← starmap E self choice_args;
      fs ← io_lift (add_finding E (findings self) results);
      mret (Some fs, set_findings self fs)
  end.
Proof.
  unfold scan. destruct self as [rules [] alt ex fs]; reflexivity.
Qed.

Lemma mapstar_trace_ok self choice_args :
  Forall (event_ok E self) (io_trace (mapstar E self choice_args)).
Proof.
  induction choice_args as [|[scan_paths r] rest IH]; simpl.
  - constructor.
  - rewrite io_trace_bind. apply Forall_app. split.
    + apply choice_matcher_trace_ok.
    + destruct (io_result _); [constructor|].
      rewrite io_trace_bind. apply Forall_app. split; [done|].
      destruct (io_result _); constructor.
Qed.

Lemma starmap_trace_ok self choice_args :
  Forall (event_ok E self) (io_trace (starmap E self choice_args)).
Proof. rewrite starmap_trace. apply mapstar_trace_ok. Qed.

Lemma scan_trace_ok self paths :
  Forall (event_ok E self) (io_trace (scan E self paths)).
Proof.
  rewrite scan_eq. destruct (scan_rules self) as [|r0 rules] eqn:Hr.
  { constructor. }
  destruct paths as [|p0 paths]; [constructor|]. rewrite <- Hr.
  rewrite io_trace_bind, io_trace_lift, io_result_lift, app_nil_l.
  destruct (validate_rules _); [constructor|].
  rewrite io_trace_bind, io_trace_lift, io_result_lift, app_nil_l.
  destruct (build_choice_args _ _ _) as [|args]; [constructor|].
  rewrite io_trace_bind. apply Forall_app. split.
  { apply starmap_trace_ok. }
  destruct (io_result _) as [|results]; [constructor|].
  rewrite io_trace_bind, io_trace_lift, io_result_lift, app_nil_l.
  destruct (add_finding _ _ _); constructor.
Qed.

Lemma scan_nonempty self paths :
  scan_rules self ≠ [] → paths ≠ [] →
  scan E self paths =
  (io_lift (validate_rules (scan_rules self));;
   choice_args ← io_lift (build_choice_args self paths (scan_rules self));
   results ← starmap E self choice_args;
   fs ← io_lift (add_finding E (findings self) results);
   mret (Some fs, set_findings self fs)).
Proof.
  intros Hr Hp. rewrite scan_eq.
  destruct (scan_rules self); [done|]. by destruct paths.
Qed.

(** A validation failure is raised before any file is touched. *)
Lemma scan_invalid self paths e :
  scan_rules self ≠ [] → paths ≠ [] →
  validate_rules (scan_rules self) = inl e →
  scan E self paths = ([], inl e).
Proof.
  intros Hr Hp Hv. rewrite scan_nonempty by done. by rewrite Hv.
Qed.

Lemma scan_result self paths :
  scan_rules self ≠ [] → paths ≠ [] →
  io_result (scan E self paths) =
  (validate_rules (scan_rules self);;
   choice_args ← build_choice_args self paths (scan_rules self);
   results ← io_result (starmap E self choice_args);
   fs ← add_finding E (findings self) results;
   mret (Some fs, set_findings self fs)).
Proof.
  intros Hr Hp. rewrite scan_nonempty by done.
  rewrite io_result_bind, io_result_lift.
  destruct (validate_rules _); [done|]. rewrite !exn_bind_inr.
  rewrite io_result_bind, io_result_lift.
  destruct (build_choice_args _ _ _) as [|args]; [done|].
  rewrite !exn_bind_inr, io_result_bind.
  destruct (io_result (starmap _ _ _)) as [|results]; [done|].
  rewrite !exn_bind_inr, io_result_bind, io_result_lift.
  by destruct (add_finding _ _ _).
Qed.

End scan.

(** ** Validation *)

Ltac elem_of_list := repeat constructor.

Lemma well_formed_valid r : well_formed r → validate_rule r = inr ().
Proof.
  intros (d & -> & H). unfold validate_rule.
  by rewrite !H by (unfold required_fields; elem_of_list).
Qed.

Lemma validate_rules_first_invalid good bad rest e :
  Forall well_formed good → validate_rule bad = inl e →
  validate_rules (good ++ bad :: rest) = inl e.
Proof.
  intros Hgood Hbad. induction Hgood as [|r good Hr _ IH]; simpl.
  - by rewrite Hbad.
  - by rewrite (well_formed_valid r Hr).
Qed.

Lemma validate_rule_missing d pre k post :
  required_fields = pre ++ k :: post →
  (∀ k', k' ∈ pre → get_truthy d k' = true) →
  get_truthy d k = false →
  validate_rule (PDict d) =
  inl (Exn (missing_kind k) ("The rule is missing the key '" +:+ k +:+ "'")).
Proof.
  unfold required_fields, validate_rule. intros Heq Hpre Hk.
  destruct pre as [|a1 [|a2 [|a3 [|a4 [|a5 pre]]]]]; simplify_eq/=;
    rewrite ?Hpre by elem_of_list; try by rewrite Hk.
  by destruct pre.
Qed.

(** ** The claims on validation, filtering and error containment *)

(** C3 (as amended).  Validation runs before any file is touched and stops at
    the first invalid rule: when rules and paths are both non-empty, the rules
    before [bad] are well formed and [bad] is not, [scan] raises with an empty
    trace of file accesses.  A rule that is not a dict raises
    [InvalidRuleFormatError]; a dict whose first missing (absent or falsy)
    field is [k] raises [TypeKeyMissingError] for [id] and
    [PatternKeyMissingError] for [type], [choice_type], [selection] and
    [choice], with a message that names [k]. *)
Theorem validation_fails_fast E self paths good bad rest :
  scan_rules self = good ++ bad :: rest → paths ≠ [] →
  Forall well_formed good →
  (∀ v, bad = PNonDict v →
     scan E self paths =
     ([], inl (Exn InvalidRuleFormatError "Choice Matcher Rule format is invalid."))) ∧
  (∀ d pre k post,
     bad = PDict d →
     required_fields = pre ++ k :: post →
     (∀ k', k' ∈ pre → get_truthy d k' = true) →
     get_truthy d k = false →
     scan E self paths =
     ([], inl (Exn (if decide (k = "id") then TypeKeyMissingError
                    else PatternKeyMissingError)
                   ("The rule is missing the key '" +:+ k +:+ "'")))).
Proof.
  intros Hrules Hpaths Hgood.
  assert (scan_rules self ≠ []) as Hne.
  { rewrite Hrules. by destruct good. }
  split.
  - intros v ->. apply scan_invalid; [done..|].
    rewrite Hrules. by apply validate_rules_first_invalid.
  - intros d pre k post -> Hreq Hpre Hk. apply scan_invalid; [done..|].
    rewrite Hrules. apply validate_rules_first_invalid; [done|].
    by apply (validate_rule_missing d pre k post).
Qed.

(** C5 (the part the code breaks).  With an empty path list [scan] takes the
    bare [return]: its value is [None], not a mapping, whatever the rules
    are, and nothing is validated or scanned. *)
Theorem scan_without_paths_returns_none E options :
  scan E (init options) [] = ([], inr (None, init options)).
Proof.
  rewrite scan_eq. by destruct (scan_rules (init options)).
Qed.

(** With no rules the same bare [return] is taken. *)
Lemma scan_without_rules_returns_none E self paths :
  scan_rules self = [] → scan E self paths = ([], inr (None, self)).
Proof. intros H. rewrite scan_eq. by rewrite H. Qed.

(** With rules and paths, a [scan] that does not raise returns the findings
    mapping. *)
Lemma scan_returns_findings E self paths x self' :
  scan_rules self ≠ [] → paths ≠ [] →
  io_result (scan E self paths) = inr (x, self') →
  x = Some (findings self').
Proof.
  intros Hr Hp. rewrite scan_result by done. intros H.
  destruct (validate_rules _); [done|]. rewrite exn_bind_inr in H.
  destruct (build_choice_args _ _ _); [done|]. rewrite exn_bind_inr in H.
  destruct (io_result (starmap _ _ _)); [done|]. rewrite exn_bind_inr in H.
  destruct (add_finding _ _ _); [done|]. rewrite exn_bind_inr in H.
  by injection H as <- <-.
Qed.

Lemma init_exts options :
  exts (init options) = lower <$> default [] (choice_extensions options).
Proof. simpl. by destruct (choice_extensions options) as [[|??]|]. Qed.

Lemma ext_filtered_true self ext :
  ext_filtered self ext = true ↔ exts self ≠ [] ∧ ext ∉ exts self.
Proof.
  unfold ext_filtered. destruct (exts self) as [|e es].
  - split; [done|]. by intros [? _].
  - rewrite negb_true_iff, bool_decide_eq_false. split; [done|]. by intros [_ ?].
Qed.

(** C6.  A file of more than 5 MB (5 * 1000 * 1000 bytes) is passed over
    without an error: the result of the rule's task, value or exception, is
    the one obtained without the file, and no [scan] ever reads the file or
    gives it to the pattern matcher. *)
Theorem oversized_file_is_skipped E self r l1 sfile l2 st_size :
  fs_stat E sfile = inr st_size → 5 * 1000 * 1000 < st_size →
  (io_result (choice_matcher E self (l1 ++ sfile :: l2) r) =
   io_result (choice_matcher E self (l1 ++ l2) r)) ∧
  (∀ paths, (EvReadText sfile ∉ io_trace (scan E self paths)) ∧
            (EvFindChoices sfile ∉ io_trace (scan E self paths))).
Proof.
  intros Hstat Hbig. apply too_big_spec in Hbig. split.
  - apply choice_matcher_skip. right. eauto.
  - intros paths.
    pose proof (scan_trace_ok E self paths) as Hok.
    rewrite Forall_forall in Hok.
    split; intros Hin; apply Hok in Hin as (_ & sz & Hsz & Hsmall);
      congruence.
Qed.

(** C7.  With a non-empty allow-list, a file whose lower-cased suffix is not
    among the lower-cased entries is passed over: the result of the rule's
    task is the one obtained without the file and no [scan] touches it.  With
    an empty (or absent) allow-list nothing is filtered: a task that
    completes has looked at every file it was given. *)
Theorem extension_allow_list E options r l1 sfile l2 :
  let self := init options in
  let allow := default [] (choice_extensions options) in
  (allow ≠ [] → lower (suffix sfile) ∉ lower <$> allow →
     (io_result (choice_matcher E self (l1 ++ sfile :: l2) r) =
      io_result (choice_matcher E self (l1 ++ l2) r)) ∧
     (∀ paths ev, ev ∈ io_trace (scan E self paths) →
                  ev ∉ [EvStat sfile; EvReadText sfile; EvFindChoices sfile])) ∧
  (allow = [] →
     ∀ paths res, io_result (choice_matcher E self paths r) = inr res →
     ∀ f, f ∈ paths → EvStat f ∈ io_trace (choice_matcher E self paths r)).
Proof.
  intros self allow. split.
  - intros Hne Hnot.
    assert (ext_filtered self (lower (suffix sfile)) = true) as Hext.
    { apply ext_filtered_true. unfold self. rewrite init_exts.
      split; [|done]. fold allow. by destruct allow. }
    split.
    + apply choice_matcher_skip. by left.
    + intros paths ev Hin.
      pose proof (scan_trace_ok E self paths) as Hok.
      rewrite Forall_forall in Hok. apply Hok in Hin.
      unfold event_ok in Hin. intros Hev.
      apply elem_of_cons in Hev as [->|Hev]; [by rewrite Hext in Hin|].
      apply elem_of_cons in Hev as [->|Hev];
        [destruct Hin as [Hin _]; by rewrite Hext in Hin|].
      apply elem_of_cons in Hev as [->|Hev];
        [destruct Hin as [Hin _]; by rewrite Hext in Hin|].
      by apply elem_of_nil in Hev.
  - intros Hempty paths res Hres f Hf.
    rewrite choice_matcher_result in Hres. rewrite choice_matcher_trace.
    destruct (io_result (scan_files _ _ _ _ _)) as [|st] eqn:Hst; [done|].
    eapply scan_files_stats_all; [|done..].
    intros f'. unfold ext_filtered, self. rewrite init_exts.
    fold allow. by rewrite Hempty.
Qed.



(** ** [get_meta] *)

Lemma exn_bind_inv {A B} (m : exn + A) (k : A → exn + B) b :
  m ≫= k = inr b → ∃ a, m = inr a ∧ k a = inr b.
Proof. destruct m as [e|a]; [done|]. eauto. Qed.

Lemma dict_getitem_inr (d : rule) k v :
  dict_getitem d k = inr v ↔ d !! k = Some v.
Proof.
  unfold dict_getitem. destruct (d !! k); split; intros; by simplify_eq.
Qed.

Lemma py_format_inr E t arg s :
  py_format E t arg = inr s →
  ∃ template, t = PStr template ∧ str_format E template arg = inr s.
Proof. destruct t; simpl; try done. eauto. Qed.

Lemma meta_fold_lookup (b m : rule) (k : string) :
  map_fold (λ key value (meta_dict : rule),
              if bool_decide (key ∈ reserved_keys) then meta_dict
              else <[key := value]> meta_dict) b m !! k =
  match (if bool_decide (k ∈ reserved_keys) then None else m !! k) with
  | Some v => Some v
  | None => b !! k
  end.
Proof.
  revert k. apply (map_fold_weak_ind (λ (acc m : rule), ∀ k : string,
    acc !! k = match (if bool_decide (k ∈ reserved_keys) then None else m !! k) with
               | Some v => Some v
               | None => b !! k
               end)).
  - intros k. rewrite lookup_empty. by destruct (bool_decide _).
  - intros i x m' acc Hi IH k.
    destruct (bool_decide (i ∈ reserved_keys)) eqn:Hres.
    + rewrite IH. destruct (bool_decide (k ∈ reserved_keys)) eqn:Hk; [done|].
      rewrite lookup_insert_ne; [done|]. intros ->. congruence.
    + destruct (decide (i = k)) as [->|Hne].
      * by rewrite Hres, !lookup_insert_eq.
      * by rewrite !lookup_insert_ne, IH.
Qed.

Lemma get_meta_lookup (r : rule) selection meta k :
  get_meta r selection = inr meta →
  meta !! k =
  if decide (k = "choice") then Some (PStr selection)
  else if bool_decide (k ∈ reserved_keys) then None
  else match r !! k with
       | Some v => Some v
       | None => if decide (k = "description") then r !! "message" else None
       end.
Proof.
  unfold get_meta. intros H.
  apply exn_bind_inv in H as (message & Hm%dict_getitem_inr & H).
  injection H as <-. rewrite meta_fold_lookup.
  destruct (decide (k = "choice")) as [->|Hc]; [done|].
  destruct (bool_decide (k ∈ reserved_keys)) eqn:Hk.
  - rewrite lookup_insert_ne, lookup_insert_ne, lookup_empty; [done..|].
    intros <-. by vm_compute in Hk.
  - destruct (r !! k); [done|].
    destruct (decide (k = "description")) as [->|Hd].
    + by rewrite lookup_insert_eq.
    + by rewrite !lookup_insert_ne, lookup_empty.
Qed.

(** C8 (as amended).  [get_meta] returns a record exactly when the rule has
    a [message].  The record holds [choice], the formatted selection;
    [description], which is the rule's [message] unless the rule has a
    [description] key of its own, whose value then passes through in its
    place; and, under every other key, what the rule holds there, except
    that the reserved keys [message], [id], [type], [choice_type],
    [selection] and [else] are left out. *)
Theorem finding_record_contents (r : rule) (selection : string) :
  ((∃ meta, get_meta r selection = inr meta) ↔ is_Some (r !! "message")) ∧
  (∀ meta : rule, get_meta r selection = inr meta →
     meta !! "choice" = Some (PStr selection) ∧
     meta !! "description" = match r !! "description" with
                             | Some d => Some d
                             | None => r !! "message"
                             end ∧
     (∀ k, k ≠ "choice" → k ≠ "description" →
           meta !! k = if bool_decide (k ∈ reserved_keys) then None else r !! k)).
Proof.
  split.
  - unfold get_meta, dict_getitem. destruct (r !! "message") as [m|].
    + split; [eauto|]. intros _. eexists. by rewrite exn_bind_inr.
    + split; [by intros [? ?]|by intros [? ?]].
  - intros meta H. split; [|split].
    + by rewrite (get_meta_lookup r selection meta "choice" H).
    + rewrite (get_meta_lookup r selection meta "description" H).
      by destruct (r !! "description").
    + intros k Hc Hd. rewrite (get_meta_lookup r selection meta k H).
      rewrite decide_False by done.
      destruct (bool_decide _); [done|].
      destruct (r !! k); [done|]. by rewrite decide_False.
Qed.

(** C8 as stated fails: a rule that carries a [description] key gets that
    value, not its [message], as the finding's description. *)
Lemma description_is_not_always_the_message :
  ¬ (∀ (r : rule) (selection : string) (meta : rule),
       get_meta r selection = inr meta →
       meta !! "description" = r !! "message").
Proof.
  intros H.
  pose (r := <["description" := PStr "Overridden"]> Demo.sdk_rule).
  pose (meta := <["description" := PStr "Overridden"]>
                  (<["choice" := PStr "Target SDK: Lollipop"]> (∅ : rule))).
  assert (get_meta r "Target SDK: Lollipop" = inr meta) as Hg
    by (vm_compute; reflexivity).
  specialize (H r _ meta Hg). discriminate H.
Qed.

(** ** The smallest matched index *)

Lemma foldr_min_spec (x : Z) (xs : list Z) :
  foldr Z.min x xs ∈ x :: xs ∧ ∀ y, y ∈ x :: xs → foldr Z.min x xs ≤ y.
Proof.
  induction xs as [|a xs [IHin IHle]]; simpl.
  - split; [by left|]. intros y ->%list_elem_of_singleton. lia.
  - split.
    + destruct (Z.min_spec a (foldr Z.min x xs)) as [[_ ->]|[_ ->]].
      * right. by left.
      * apply elem_of_cons in IHin as [->|?]; [by left|]. right. by right.
    + intros y Hy. pose proof (IHle x ltac:(by left)).
      apply elem_of_cons in Hy as [->|Hy]; [lia|].
      apply elem_of_cons in Hy as [->|Hy]; [lia|].
      pose proof (IHle y ltac:(by right)). lia.
Qed.

Lemma py_min_spec (s : gset Z) (m : Z) :
  py_min s = inr m → m ∈ s ∧ ∀ i, i ∈ s → m ≤ i.
Proof.
  unfold py_min. destruct (elements s) as [|x xs] eqn:Hel; [done|].
  intros [= <-]. destruct (foldr_min_spec x xs) as [Hin Hle].
  rewrite <- Hel in Hin, Hle. split.
  - by apply elem_of_elements.
  - intros i Hi. apply Hle. by apply elem_of_elements.
Qed.

Lemma py_min_nonempty (s : gset Z) : s ≠ ∅ → ∃ m, py_min s = inr m.
Proof.
  intros Hne. unfold py_min. destruct (elements s) as [|x xs] eqn:Hel; [|eauto].
  by apply elements_empty_inv, leibniz_equiv in Hel.
Qed.

Lemma spec_smallest_index_min (choice : list pyval) (matches : gset Z) idx :
  py_min matches = inr idx → 0 ≤ idx < Z.of_nat (length choice) →
  spec_smallest_index choice matches = Some idx.
Proof.
  intros [Hin Hle]%py_min_spec Hrange. unfold spec_smallest_index.
  destruct (filter _ _) as [|i rest] eqn:Hf.
  - assert (idx ∈ filter (λ i, 0 ≤ i < Z.of_nat (length choice))
                         (elements matches)) as H.
    { apply list_elem_of_filter. split; [done|by apply elem_of_elements]. }
    rewrite Hf in H. by apply elem_of_nil in H.
  - destruct (foldr_min_spec i rest) as [Hmin_in Hmin_le].
    rewrite <- Hf in Hmin_in, Hmin_le. f_equal.
    apply list_elem_of_filter in Hmin_in as [_ Hmin_in%elem_of_elements].
    assert (foldr Z.min i rest ≤ idx).
    { apply Hmin_le, list_elem_of_filter. split; [done|by apply elem_of_elements]. }
    pose proof (Hle _ Hmin_in). lia.
Qed.

Lemma py_index_in_range {A} (l : list A) (i : Z) :
  0 ≤ i < Z.of_nat (length l) → py_index l i = l !! Z.to_nat i.
Proof.
  intros H. unfold py_index.
  by rewrite (proj2 (Z.leb_le _ _)), (proj2 (Z.ltb_lt _ _)) by lia.
Qed.

Lemma spec_smallest_index_inv (choice : list pyval) (matches : gset Z) idx :
  spec_smallest_index choice matches = Some idx →
  idx ∈ matches ∧ 0 ≤ idx < Z.of_nat (length choice).
Proof.
  unfold spec_smallest_index.
  destruct (filter _ _) as [|i rest] eqn:Hf; [done|]. intros [= <-].
  destruct (foldr_min_spec i rest) as [Hin _]. rewrite <- Hf in Hin.
  by apply list_elem_of_filter in Hin as [? ?%elem_of_elements].
Qed.

(** When no matched index is negative, the smallest matched index that
    exists in [choice] is the smallest matched index. *)
Lemma smallest_existing_is_min (choice : list pyval) (matches : gset Z) idx :
  (∀ i, i ∈ matches → 0 ≤ i) →
  spec_smallest_index choice matches = Some idx → py_min matches = inr idx.
Proof.
  intros Hpos Hspec.
  destruct (spec_smallest_index_inv _ _ _ Hspec) as [Hin Hrange].
  destruct (py_min_nonempty matches) as [m Hm].
  { intros ->. by apply not_elem_of_empty in Hin. }
  destruct (py_min_spec _ _ Hm) as [Hmin Hle].
  assert (0 ≤ m < Z.of_nat (length choice)) as Hm_range.
  { pose proof (Hpos m Hmin). pose proof (Hle idx Hin). lia. }
  rewrite (spec_smallest_index_min choice matches m Hm Hm_range) in Hspec.
  by injection Hspec as <-.
Qed.

(** C2.  The matched indices of an [or]/[and] rule are positions in the
    rule's [choice], counted from 0.  For every such match set, the smallest
    of the matched indices that exist in [choice] is [min(matches)], the
    index the code uses; there is one as soon as the set is not empty and
    its indices are below the length of [choice]; and the label the code
    resolves is the one the specification describes.  The order of the files
    does not matter: a permutation of the files gives the same task result,
    and when scanning a file raises, an error of the same class with the
    same message. *)
Theorem smallest_index_wins (r : rule) (matches : gset Z) :
  (∀ i, i ∈ matches → 0 ≤ i) →
  (∀ choice idx, r !! "choice" = Some (PList choice) →
     spec_smallest_index choice matches = Some idx →
     py_min matches = inr idx) ∧
  (∀ choice, r !! "choice" = Some (PList choice) →
     matches ≠ ∅ → (∀ i, i ∈ matches → i < Z.of_nat (length choice)) →
     ∃ idx, spec_smallest_index choice matches = Some idx) ∧
  (∀ label, spec_label r matches = Some label →
            select_label r matches = inr label) ∧
  (∀ E self l l', l ≡ₚ l' →
     same_outcome (io_result (choice_matcher E self l r))
                  (io_result (choice_matcher E self l' r))).
Proof.
  intros Hpos. split; [|split; [|split]].
  - intros choice idx _. by apply smallest_existing_is_min.
  - intros choice _ Hne Hlt.
    destruct (py_min_nonempty matches Hne) as [m Hm].
    destruct (py_min_spec _ _ Hm) as [Hin _]. exists m.
    apply spec_smallest_index_min; [done|].
    pose proof (Hpos m Hin). pose proof (Hlt m Hin). lia.
  - intros label. unfold spec_label.
    destruct (r !! "choice") as [[|z|s|choice]|] eqn:Hchoice; try done.
    destruct (spec_smallest_index choice matches) as [idx|] eqn:Hspec;
      [|done].
    pose proof (smallest_existing_is_min choice matches idx Hpos Hspec)
      as Hmin.
    destruct (spec_smallest_index_inv _ _ _ Hspec) as [_ Hrange].
    unfold select_label, dict_getitem.
    rewrite Hchoice, exn_bind_inr, Hmin, exn_bind_inr. simpl.
    rewrite py_index_in_range by done.
    destruct (choice !! Z.to_nat idx) as [entry|]; simpl; [|done].
    destruct (getitem entry 1); intros; by simplify_eq.
  - intros E self l l' Hp. by apply choice_matcher_perm.
Qed.

(** ** [add_finding] *)

Section add_finding.
Context (E : Externals).

Lemma add_match_dict_inv fs md fs' :
  add_match_dict E fs md = inr fs' →
  (selection_of E md = inr None ∧ fs' = fs) ∨
  ∃ selection id key meta,
    selection_of E md = inr (Some selection) ∧
    get_meta (md_rule md) selection = inr meta ∧
    md_rule md !! "id" = Some id ∧ to_key id = inr key ∧
    fs' = <[key := meta]> fs.
Proof.
  unfold add_match_dict. intros H.
  apply exn_bind_inv in H as ([selection|] & Hsel & H).
  - right.
    apply exn_bind_inv in H as (meta & Hmeta & H).
    apply exn_bind_inv in H as (id & Hid%dict_getitem_inr & H).
    apply exn_bind_inv in H as (key & Hkey & H).
    injection H as <-. by exists selection, id, key, meta.
  - left. by injection H as <-.
Qed.

(** A selection formatted with [arg] and stored: the finding is added. *)
Lemma finding_added_intro (r : rule) arg fs fs' template selection id key meta :
  dict_getitem r "selection" = inr template →
  py_format E template arg = inr selection →
  get_meta r selection = inr meta →
  r !! "id" = Some id → to_key id = inr key →
  fs' = <[key := meta]> fs →
  finding_added E r arg fs fs'.
Proof.
  intros Ht%dict_getitem_inr (t & -> & Hf)%py_format_inr Hmeta Hid Hkey ->.
  exists t, selection, id, key, meta. repeat split; try done.
  by rewrite (get_meta_lookup r selection meta "choice" Hmeta).
Qed.

Lemma add_match_dict_keys rules fs md fs' :
  add_match_dict E fs md = inr fs' →
  PDict (md_rule md) ∈ rules →
  (∀ k, k ∈ dom fs → rule_id_key rules k) →
  ∀ k, k ∈ dom fs' → rule_id_key rules k.
Proof.
  intros [[_ ->]|(sel & id & key & meta & _ & _ & Hid & Hkey & ->)]%add_match_dict_inv
    Hin Hfs k; [apply Hfs|].
  rewrite dom_insert_L, elem_of_union, elem_of_singleton.
  intros [->|Hk]; [|by apply Hfs].
  by exists (md_rule md), id.
Qed.

Lemma add_res_list_keys rules fs res_list fs' :
  add_res_list E fs res_list = inr fs' →
  Forall (λ md, PDict (md_rule md) ∈ rules) res_list →
  (∀ k, k ∈ dom fs → rule_id_key rules k) →
  ∀ k, k ∈ dom fs' → rule_id_key rules k.
Proof.
  intros H Hall. revert fs H.
  induction Hall as [|md rest Hmd _ IH]; intros fs H Hfs; simpl in H.
  - by injection H as <-.
  - apply exn_bind_inv in H as (fs1 & H1 & H).
    eapply IH; [done|]. by eapply add_match_dict_keys.
Qed.

Lemma add_finding_keys rules fs results fs' :
  add_finding E fs results = inr fs' →
  Forall (Forall (λ md, PDict (md_rule md) ∈ rules)) results →
  (∀ k, k ∈ dom fs → rule_id_key rules k) →
  ∀ k, k ∈ dom fs' → rule_id_key rules k.
Proof.
  intros H Hall. revert fs H.
  induction Hall as [|res_list rest Hres _ IH]; intros fs H Hfs; simpl in H.
  - by injection H as <-.
  - destruct res_list as [|md res_list]; [by eapply IH|].
    apply exn_bind_inv in H as (fs1 & H1 & H).
    eapply IH; [done|]. by eapply add_res_list_keys.
Qed.

(** Every dict a task returns carries the rule of the task. *)
Lemma scan_files_results self (r : rule) st scan_paths st' :
  io_result (scan_files E self r st scan_paths) = inr st' →
  Forall (λ r', r' = r) (st_results st) →
  Forall (λ r', r' = r) (st_results st').
Proof.
  revert st. induction scan_paths as [|sfile rest IH]; intros st H Hst.
  - by injection H as <-.
  - rewrite scan_files_result_cons in H.
    apply exn_bind_inv in H as (m & _ & H). eapply IH; [done|].
    destruct m as [m|]; simpl; [|done].
    apply Forall_app. split; [done|]. by constructor.
Qed.

Lemma choice_matcher_rules self scan_paths (r : rule) res :
  io_result (choice_matcher E self scan_paths r) = inr res →
  Forall (λ md, md_rule md = r) res.
Proof.
  rewrite choice_matcher_result.
  destruct (io_result (scan_files _ _ _ _ _)) as [|st] eqn:Hst; [done|].
  intros [= <-]. apply scan_files_results in Hst; [|constructor].
  unfold match_dicts. by apply Forall_fmap.
Qed.

Lemma mapstar_rules self (rules : list pyobj) choice_args results :
  io_result (mapstar E self choice_args) = inr results →
  Forall (λ a : list path * rule, PDict a.2 ∈ rules) choice_args →
  Forall (Forall (λ md, PDict (md_rule md) ∈ rules)) results.
Proof.
  intros H Hall. revert results H.
  induction Hall as [|[scan_paths r] rest Hr _ IH]; intros results H;
    simpl in H.
  - injection H as <-. constructor.
  - rewrite io_result_bind in H.
    apply exn_bind_inv in H as (res & Hres & H).
    rewrite io_result_bind in H.
    apply exn_bind_inv in H as (ress & Hress & H).
    injection H as <-. constructor; [|by apply IH].
    eapply Forall_impl; [by eapply choice_matcher_rules|].
    by intros md ->.
Qed.

Lemma starmap_rules self (rules : list pyobj) choice_args results :
  io_result (starmap E self choice_args) = inr results →
  Forall (λ a : list path * rule, PDict a.2 ∈ rules) choice_args →
  Forall (Forall (λ md, PDict (md_rule md) ∈ rules)) results.
Proof. intros H%starmap_inr Hall. by eapply mapstar_rules. Qed.

Lemma build_choice_args_rules self paths (rules : list pyobj) choice_args :
  build_choice_args self paths rules = inr choice_args →
  Forall (λ a : list path * rule, PDict a.2 ∈ rules) choice_args.
Proof.
  revert choice_args.
  induction rules as [|[r|v] rules IH]; intros choice_args H; simpl in H.
  - injection H as <-. constructor.
  - apply exn_bind_inv in H as (ty & _ & H).
    apply exn_bind_inv in H as (args & Hargs & H).
    injection H as <-. constructor; [by left|].
    eapply Forall_impl; [by apply IH|]. intros a Ha. by right.
  - done.
Qed.

End add_finding.

Lemma select_label_inv (r : rule) (matches : gset Z) label :
  select_label r matches = inr label →
  ∃ choice idx entry,
    r !! "choice" = Some choice ∧ py_min matches = inr idx ∧
    getitem choice idx = inr entry ∧ getitem entry 1 = inr label.
Proof.
  unfold select_label. intros H.
  apply exn_bind_inv in H as (choice & Hc%dict_getitem_inr & H).
  apply exn_bind_inv in H as (idx & Hidx & H).
  apply exn_bind_inv in H as (entry & Hentry & H).
  by exists choice, idx, entry.
Qed.

(** With both sets empty and no truthy [else], a match dict is passed over
    without any lookup in the rule: nothing can raise. *)
Lemma add_match_dict_no_selection E fs md :
  md_all_matches md = ∅ → md_matches md = ∅ →
  get_truthy (md_rule md) "else" = false →
  add_match_dict E fs md = inr fs.
Proof.
  intros Hall Hm Helse. unfold add_match_dict, selection_of.
  by rewrite Hall, Hm, Helse.
Qed.

(** C1.  For one match dict that [add_finding] processes without raising,
    the branches are tried in this order.  A non-empty [all_matches]: the
    finding's choice is the selection formatted with a listing of exactly the
    tokens of the set.  Otherwise a non-empty [matches]: the selection
    formatted with the label at the smallest matched index.  Otherwise a
    truthy [else]: the selection formatted with that default.  Otherwise the
    findings are left as they were. *)
Theorem reduction_priority_order E md fs fs' :
  add_match_dict E fs md = inr fs' →
  let r := md_rule md in
  let all_matches := md_all_matches md in
  let matches := md_matches md in
  (all_matches ≠ ∅ →
     ∃ listing, listing ≡ₚ elements all_matches ∧
                finding_added E r (PList (PStr <$> listing)) fs fs') ∧
  (all_matches = ∅ → matches ≠ ∅ →
     ∃ idx choice entry label,
       (idx ∈ matches ∧ ∀ i, i ∈ matches → idx ≤ i) ∧
       r !! "choice" = Some choice ∧
       getitem choice idx = inr entry ∧ getitem entry 1 = inr label ∧
       finding_added E r label fs fs') ∧
  (all_matches = ∅ → matches = ∅ → get_truthy r "else" = true →
     ∃ default, r !! "else" = Some default ∧
                finding_added E r default fs fs') ∧
  (all_matches = ∅ → matches = ∅ → get_truthy r "else" = false → fs' = fs).
Proof.
  intros H r all_matches matches.
  apply add_match_dict_inv in H. unfold selection_of in H.
  fold r all_matches matches in H.
  split; [|split; [|split]].
  - intros Hall. rewrite bool_decide_eq_false_2 in H by done. simpl in H.
    destruct H as [[H _]|(sel & id & key & meta & H & Hmeta & Hid & Hkey & ->)];
      apply exn_bind_inv in H as (template & Ht & H);
      apply exn_bind_inv in H as (sel' & Hf & H); [done|].
    injection H as <-. exists (list_of_set E all_matches).
    split; [apply list_of_set_perm|]. by eapply finding_added_intro.
  - intros Hall Hm.
    rewrite bool_decide_eq_true_2, bool_decide_eq_false_2 in H by done.
    simpl in H.
    destruct H as [[H _]|(sel & id & key & meta & H & Hmeta & Hid & Hkey & ->)];
      apply exn_bind_inv in H as (label & Hl & H);
      apply exn_bind_inv in H as (template & Ht & H);
      apply exn_bind_inv in H as (sel' & Hf & H); [done|].
    injection H as <-.
    apply select_label_inv in Hl as (choice & idx & entry & Hc & Hidx & He & Hl).
    exists idx, choice, entry, label.
    split; [by apply py_min_spec|]. repeat (split; [done|]).
    by eapply finding_added_intro.
  - intros Hall Hm Helse.
    rewrite !bool_decide_eq_true_2, Helse in H by done. simpl in H.
    destruct H as [[H _]|(sel & id & key & meta & H & Hmeta & Hid & Hkey & ->)];
      apply exn_bind_inv in H as (template & Ht & H);
      apply exn_bind_inv in H as (default & Hd%dict_getitem_inr & H);
      apply exn_bind_inv in H as (sel' & Hf & H); [done|].
    injection H as <-. exists default. split; [done|].
    by eapply finding_added_intro.
  - intros Hall Hm Helse.
    rewrite !bool_decide_eq_true_2, Helse in H by done. simpl in H.
    by destruct H as [[_ ->]|(sel & id & key & meta & H & _)].
Qed.

(** C9.  Every key of the mapping a [scan] returns is the [id] of one of the
    rules it was set up with. *)
Theorem finding_keys_are_rule_ids E options paths fs self' :
  io_result (scan E (init options) paths) = inr (Some fs, self') →
  ∀ k, k ∈ dom fs →
    ∃ (d : rule) id, PDict d ∈ choice_rules options ∧
                     d !! "id" = Some id ∧ to_key id = inr k.
Proof.
  intros H k Hk.
  destruct (scan_rules (init options)) as [|r0 rules] eqn:Hr.
  { by rewrite scan_without_rules_returns_none in H. }
  destruct paths as [|p0 paths].
  { rewrite scan_eq in H. by destruct (scan_rules (init options)). }
  rewrite scan_result in H by (by rewrite ?Hr).
  apply exn_bind_inv in H as (? & _ & H).
  apply exn_bind_inv in H as (choice_args & Hargs & H).
  apply exn_bind_inv in H as (results & Hres & H).
  apply exn_bind_inv in H as (fs0 & Hadd & H).
  injection H as <- _.
  apply (add_finding_keys E (choice_rules options) ∅ results fs0); try done.
  eapply starmap_rules; [done|].
  by apply (build_choice_args_rules _ _ _ _ Hargs).
Qed.

Lemma scan_files_no_match E self (r : rule) st scan_paths :
  (∀ f, f ∈ scan_paths → io_result (file_match E self r f) = inr None) →
  io_result (scan_files E self r st scan_paths) = inr st.
Proof.
  induction scan_paths as [|sfile rest IH]; intros Hnone; [done|].
  rewrite scan_files_result_cons, Hnone by (by left).
  rewrite exn_bind_inr. apply IH. intros f Hf. apply Hnone. by right.
Qed.

(** C4 (what the code does instead).  For a single well-formed rule, even one
    with an [else] default, and no alternative path: when no scanned file
    gives a match, [scan] returns the empty mapping; the rule's id is not in
    it and the default is not used. *)
Theorem else_default_never_applied E options (r : rule) paths :
  choice_rules options = [PDict r] → well_formed (PDict r) →
  get_truthy r "else" = true →
  opt_alternative_path options = None → paths ≠ [] →
  (∀ f, f ∈ paths → io_result (file_match E (init options) r f) = inr None) →
  io_result (scan E (init options) paths) = inr (Some ∅, init options).
Proof.
  intros Hrules Hwf _ Halt Hpaths Hnone.
  assert (scan_rules (init options) = [PDict r]) as Hsr by done.
  rewrite scan_result by (by rewrite ?Hsr). rewrite Hsr.
  cbn [validate_rules build_choice_args].
  rewrite (well_formed_valid _ Hwf), !exn_bind_inr.
  destruct Hwf as (d & [= <-] & Hwf).
  assert (get_truthy r "type" = true) as Hty by (apply Hwf; elem_of_list).
  unfold get_truthy in Hty. unfold dict_getitem.
  destruct (r !! "type") as [ty|]; [|done]. rewrite !exn_bind_inr.
  change (alternative_path (init options)) with (opt_alternative_path options).
  rewrite Halt.
  destruct (negb (is_str ty "code")); unfold mret, exn_ret;
    rewrite !exn_bind_inr, (starmap_singleton_inr E _ paths r []);
    try done; rewrite choice_matcher_result;
    by rewrite (scan_files_no_match E (init options) r initial_state paths Hnone).
Qed.

(** ** The model on the scenarios of the specification *)

Module Scenarios.
Import Demo.

(** Two files matching "21" and "23": the smallest index, 0, wins. *)
Example sdk_two_files :
  choice_of (scan (world files) (init (options_of [sdk_rule] None))
               [a_java; b_java]) "sdk"
  = Some (PStr "Target SDK: Marshmallow").
Proof. vm_compute. reflexivity. Qed.

(** No file matches and the rule has no [else]: no finding. *)
Example sdk_no_match :
  io_result (scan (world files) (init (options_of [sdk_rule] None)) [c_java])
  = inr (Some ∅, init (options_of [sdk_rule] None)).
Proof. vm_compute. reflexivity. Qed.

(** An [all] rule: the listing of the labels found in the three files. *)
Example all_three_files :
  let r : rule :=
    <["choice_type" := PStr "all"]>
      (<["choice" := PList [PList [PStr "21"; PStr "a"];
                            PList [PStr "23"; PStr "b"]]]> sdk_rule) in
  choice_of (scan (world files) (init (options_of [r] None))
               [a_java; b_java; a_java]) "sdk"
  = Some (PStr "Target SDK: ['a', 'b']").
Proof. vm_compute. reflexivity. Qed.

Lemma sdk_rule_well_formed : well_formed (PDict sdk_rule).
Proof.
  exists sdk_rule. split; [done|]. intros k Hk.
  repeat (apply elem_of_cons in Hk as [->|Hk]; [reflexivity|]).
  by apply elem_of_nil in Hk.
Qed.

Lemma sdk_rule_with_else_well_formed : well_formed (PDict sdk_rule_with_else).
Proof.
  exists sdk_rule_with_else. split; [done|]. intros k Hk.
  repeat (apply elem_of_cons in Hk as [->|Hk]; [reflexivity|]).
  by apply elem_of_nil in Hk.
Qed.

End Scenarios.

(** ** Instances of the theorems, and where the stated claims fail *)

(** C1 at the record of the two-file scenario: both indices matched, the
    label at index 0 is formatted. *)
Lemma reduction_priority_order_witness :
  let md := {| md_rule := Demo.sdk_rule; md_matches := {[ 0; 1 ]};
               md_all_matches := ∅ |} in
  let fs' : gmap pykey rule :=
    {[ KStr "sdk" := <["description" := PStr "Target SDK"]>
                       (<["choice" := PStr "Target SDK: Marshmallow"]> ∅) ]} in
  ∃ idx choice entry label,
    (idx ∈ md_matches md ∧ ∀ i, i ∈ md_matches md → idx ≤ i) ∧
    md_rule md !! "choice" = Some choice ∧
    getitem choice idx = inr entry ∧ getitem entry 1 = inr label ∧
    finding_added (Demo.world Demo.files) (md_rule md) label ∅ fs'.
Proof.
  intros md fs'.
  apply (reduction_priority_order (Demo.world Demo.files) md ∅ fs').
  - vm_compute. reflexivity.
  - reflexivity.
  - apply (non_empty_inhabited_L 0). by apply elem_of_union_l, elem_of_singleton.
Defined.

(** C2 at the matched indices 3, 0 and 5. *)
Lemma smallest_index_wins_witness :
  py_min {[ 3; 0; 5 ]} = inr 0 ∧
  select_label Demo.sdk_rule {[ 3; 0; 5 ]} = inr (PStr "Marshmallow").
Proof.
  destruct (smallest_index_wins Demo.sdk_rule {[ 3; 0; 5 ]})
    as (Hidx & _ & Hlabel & _).
  - intros i Hi. apply elem_of_union in Hi as [Hi|Hi%elem_of_singleton]; [|lia].
    apply elem_of_union in Hi as [Hi%elem_of_singleton|Hi%elem_of_singleton];
      lia.
  - split.
    + apply (Hidx [PList [PStr "23"; PStr "Marshmallow"];
                   PList [PStr "21"; PStr "Lollipop"]]);
        [reflexivity|vm_compute; reflexivity].
    + apply Hlabel. vm_compute. reflexivity.
Defined.

(** C3 at a rule set whose second rule has no [choice_type]. *)
Lemma validation_fails_fast_witness :
  scan (Demo.world Demo.files)
    (init (Demo.options_of [Demo.sdk_rule; delete "choice_type" Demo.sdk_rule] None))
    [Demo.a_java]
  = ([], inl (Exn PatternKeyMissingError "The rule is missing the key 'choice_type'")).
Proof.
  refine (proj2 (validation_fails_fast (Demo.world Demo.files)
                   (init (Demo.options_of
                            [Demo.sdk_rule; delete "choice_type" Demo.sdk_rule]
                            None))
                   [Demo.a_java]
                   [PDict Demo.sdk_rule]
                   (PDict (delete "choice_type" Demo.sdk_rule)) []
                   eq_refl _ _)
            (delete "choice_type" Demo.sdk_rule) ["id"; "type"] "choice_type"
            ["selection"; "choice"] eq_refl eq_refl _ eq_refl).
  - done.
  - constructor; [apply Scenarios.sdk_rule_well_formed|constructor].
  - intros k Hk.
    repeat (apply elem_of_cons in Hk as [->|Hk]; [reflexivity|]).
    by apply elem_of_nil in Hk.
Defined.

(** C3 as stated fails: a rule that lacks only [type] and a rule that lacks
    only [choice] raise exceptions of the same class. *)
Lemma error_kind_is_not_field_distinct :
  ¬ (∀ (d1 d2 : rule) (k1 k2 : string),
       k1 ∈ required_fields → k2 ∈ required_fields → k1 ≠ k2 →
       missing_only d1 k1 → missing_only d2 k2 →
       raised_kind (validate_rules [PDict d1]) ≠
       raised_kind (validate_rules [PDict d2])).
Proof.
  intros H.
  apply (H (delete "type" Demo.sdk_rule) (delete "choice" Demo.sdk_rule)
           "type" "choice"); [elem_of_list|elem_of_list|done|..].
  - split; [reflexivity|]. intros k Hk Hne.
    repeat (apply elem_of_cons in Hk as [->|Hk]; [done || reflexivity|]).
    by apply elem_of_nil in Hk.
  - split; [reflexivity|]. intros k Hk Hne.
    repeat (apply elem_of_cons in Hk as [->|Hk]; [done || reflexivity|]).
    by apply elem_of_nil in Hk.
  - vm_compute. reflexivity.
Qed.

(** C4 at a rule with the default "Unknown" and one file that names no SDK
    level: the mapping returned is empty. *)
Lemma else_default_never_applied_witness :
  io_result (scan (Demo.world Demo.files)
               (init (Demo.options_of [Demo.sdk_rule_with_else] None))
               [Demo.c_java])
  = inr (Some ∅, init (Demo.options_of [Demo.sdk_rule_with_else] None)).
Proof.
  apply (else_default_never_applied (Demo.world Demo.files)
           (Demo.options_of [Demo.sdk_rule_with_else] None)
           Demo.sdk_rule_with_else [Demo.c_java]).
  - reflexivity.
  - apply Scenarios.sdk_rule_with_else_well_formed.
  - reflexivity.
  - reflexivity.
  - done.
  - intros f Hf. apply list_elem_of_singleton in Hf as ->.
    vm_compute. reflexivity.
Defined.

(** C6 at a 6 MB file whose text would match. *)
Lemma oversized_file_is_skipped_witness :
  let W := Demo.world Demo.files in
  let self := init (Demo.options_of [Demo.sdk_rule] None) in
  (io_result (choice_matcher W self ([] ++ Demo.big_java :: []) Demo.sdk_rule) =
   io_result (choice_matcher W self ([] ++ []) Demo.sdk_rule)) ∧
  (∀ paths, (EvReadText Demo.big_java ∉ io_trace (scan W self paths)) ∧
            (EvFindChoices Demo.big_java ∉ io_trace (scan W self paths))).
Proof.
  intros W self.
  apply (oversized_file_is_skipped W self Demo.sdk_rule [] Demo.big_java []
           6000000).
  - reflexivity.
  - lia.
Defined.

(** C7 at the allow-list [".Java"] and a Kotlin file. *)
Lemma extension_allow_list_witness :
  let W := Demo.world Demo.files in
  let self := init (Demo.options_of [Demo.sdk_rule] (Some [".Java"])) in
  io_result (choice_matcher W self ([] ++ Demo.d_kt :: []) Demo.sdk_rule) =
  io_result (choice_matcher W self ([] ++ []) Demo.sdk_rule).
Proof.
  intros W self.
  refine (proj1 (proj1 (extension_allow_list W
                          (Demo.options_of [Demo.sdk_rule] (Some [".Java"]))
                          Demo.sdk_rule [] Demo.d_kt []) _ _)).
  - done.
  - apply (bool_decide_unpack _). vm_compute. exact I.
Defined.

(** C8 at the rule of the scenario. *)
Lemma finding_record_contents_witness :
  let meta : rule := <["description" := PStr "Target SDK"]>
                       (<["choice" := PStr "Target SDK: Lollipop"]> ∅) in
  meta !! "choice" = Some (PStr "Target SDK: Lollipop").
Proof.
  intros meta.
  apply (proj2 (finding_record_contents Demo.sdk_rule "Target SDK: Lollipop")
           meta).
  vm_compute. reflexivity.
Defined.

(** C9 at the two-file scenario. *)
Lemma finding_keys_are_rule_ids_witness :
  let options := Demo.options_of [Demo.sdk_rule] None in
  ∃ (d : rule) id, PDict d ∈ choice_rules options ∧
                   d !! "id" = Some id ∧ to_key id = inr (KStr "sdk").
Proof.
  intros options.
  pose (fs := {[ KStr "sdk" := <["description" := PStr "Target SDK"]>
                 (<["choice" := PStr "Target SDK: Marshmallow"]> (∅ : rule)) ]}
              : gmap pykey rule).
  apply (finding_keys_are_rule_ids (Demo.world Demo.files) options
           [Demo.a_java; Demo.b_java] fs (set_findings (init options) fs)).
  - vm_compute. reflexivity.
  - apply elem_of_dom. eexists. apply lookup_singleton_eq.
Defined.



(** * Further properties of the code *)

(** ** Validation *)

Lemma validate_rule_ok_inv r : validate_rule r = inr () → well_formed r.
Proof.
  destruct r as [d|v]; [|done]. unfold validate_rule.
  destruct (get_truthy d "id") eqn:H1; [|done].
  destruct (get_truthy d "type") eqn:H2; [|done].
  destruct (get_truthy d "choice_type") eqn:H3; [|done].
  destruct (get_truthy d "selection") eqn:H4; [|done].
  destruct (get_truthy d "choice") eqn:H5; [|done].
  intros _. exists d. split; [done|]. intros k Hk.
  repeat (apply elem_of_cons in Hk as [->|Hk]; [done|]).
  by apply elem_of_nil in Hk.
Qed.

(** X1.  [validate_rules] accepts a rule list exactly when every rule is a
    dict whose [id], [type], [choice_type], [selection] and [choice] are all
    present and truthy; nothing else about a rule is checked. *)
Theorem validation_accepts_exactly_well_formed (rules : list pyobj) :
  validate_rules rules = inr () ↔ Forall well_formed rules.
Proof.
  induction rules as [|r rules IH]; simpl.
  - split; [constructor|done].
  - split.
    + intros H. apply exn_bind_inv in H as ([] & Hr & H).
      constructor; [by apply validate_rule_ok_inv|by apply IH].
    + intros H. apply Forall_cons in H as [Hr H].
      rewrite (well_formed_valid r Hr). by apply IH.
Qed.

(** ** One task per rule *)

Lemma is_str_true v s : is_str v s = true ↔ v = PStr s.
Proof.
  destruct v; simpl; try (split; [done|by intros [=]]).
  rewrite String.eqb_eq. split; [by intros ->|by intros [= ->]].
Qed.

Lemma build_choice_args_inv self paths (rules : list pyobj) args :
  build_choice_args self paths rules = inr args →
  rules = PDict <$> (snd <$> args) ∧
  Forall (λ a : list path * rule,
            ∃ ty, a.2 !! "type" = Some ty ∧
                  a.1 = match negb (is_str ty "code"), alternative_path self with
                        | true, Some alt => [alt]
                        | _, _ => paths
                        end) args.
Proof.
  revert args. induction rules as [|[r|v] rules IH]; intros args H; simpl in H.
  - by injection H as <-.
  - apply exn_bind_inv in H as (ty & Hty%dict_getitem_inr & H).
    apply exn_bind_inv in H as (args' & Hargs & H).
    injection H as <-. destruct (IH _ Hargs) as [-> Hall].
    split; [done|]. constructor; [|done]. by exists ty.
  - done.
Qed.

Lemma mapstar_inv E self choice_args results :
  io_result (mapstar E self choice_args) = inr results →
  Forall2 (λ (a : list path * rule) res,
             io_result (choice_matcher E self a.1 a.2) = inr res)
          choice_args results.
Proof.
  revert results. induction choice_args as [|[scan_paths r] rest IH];
    intros results H; simpl in H.
  - injection H as <-. constructor.
  - rewrite io_result_bind in H.
    apply exn_bind_inv in H as (res & Hres & H).
    rewrite io_result_bind in H.
    apply exn_bind_inv in H as (ress & Hress & H).
    injection H as <-. constructor; [done|by apply IH].
Qed.

Lemma starmap_inv E self choice_args results :
  io_result (starmap E self choice_args) = inr results →
  Forall2 (λ (a : list path * rule) res,
             io_result (choice_matcher E self a.1 a.2) = inr res)
          choice_args results.
Proof. intros H%starmap_inr. by apply mapstar_inv. Qed.

(** X2.  [scan] makes one task per rule, in the order of the rules, and
    [add_finding] receives one result list per task in that same order: the
    result of the task of the i-th rule is the i-th result. *)
Theorem one_task_per_rule E self paths choice_args results :
  build_choice_args self paths (scan_rules self) = inr choice_args →
  io_result (starmap E self choice_args) = inr results →
  scan_rules self = PDict <$> (snd <$> choice_args) ∧
  Forall2 (λ (a : list path * rule) res,
             io_result (choice_matcher E self a.1 a.2) = inr res)
          choice_args results.
Proof.
  intros Hargs Hres. split.
  - by apply build_choice_args_inv in Hargs as [? _].
  - by apply starmap_inv.
Qed.

(** ** Which files are touched *)

Lemma file_match_trace_prefix E self (r : rule) sfile :
  io_trace (file_match E self r sfile) `prefix_of`
  [EvStat sfile; EvReadText sfile; EvFindChoices sfile].
Proof.
  unfold file_match. destruct (ext_filtered self _); [by eexists|].
  io_unfold. destruct (fs_stat E sfile) as [?|sz]; [by eexists [_; _]|].
  destruct (too_big sz); [by eexists [_; _]|].
  destruct (fs_read_text E sfile); [by eexists [_]|]; simpl.
  destruct (if bool_decide _ then _ else _); [by eexists [_]|]; simpl.
  destruct (find_choices _ _ _); by exists [].
Qed.

Lemma file_match_trace_paths E self (r : rule) sfile :
  Forall (λ ev, event_path ev = sfile) (io_trace (file_match E self r sfile)).
Proof.
  destruct (file_match_trace_prefix E self r sfile) as [k Hk].
  assert (Forall (λ ev, event_path ev = sfile)
            [EvStat sfile; EvReadText sfile; EvFindChoices sfile]) as Hall
    by (by repeat constructor).
  rewrite Hk in Hall. by apply Forall_app in Hall as [? _].
Qed.

Lemma scan_files_trace_paths E self (r : rule) st scan_paths :
  Forall (λ ev, event_path ev ∈ scan_paths)
    (io_trace (scan_files E self r st scan_paths)).
Proof.
  revert st. induction scan_paths as [|sfile rest IH]; intros st; simpl.
  - constructor.
  - rewrite io_trace_bind, scan_file_trace. apply Forall_app. split.
    + eapply Forall_impl; [apply file_match_trace_paths|].
      intros ev ->. by left.
    + destruct (io_result _); [constructor|].
      eapply Forall_impl; [apply IH|]. intros ev Hev. by right.
Qed.

Lemma mapstar_trace_paths E self choice_args (P : path → Prop) :
  Forall (λ a : list path * rule, ∀ f, f ∈ a.1 → P f) choice_args →
  Forall (λ ev, P (event_path ev)) (io_trace (mapstar E self choice_args)).
Proof.
  induction 1 as [|[scan_paths r] rest Ha _ IH]; simpl.
  - constructor.
  - rewrite io_trace_bind. apply Forall_app. split.
    + rewrite choice_matcher_trace.
      eapply Forall_impl; [apply scan_files_trace_paths|].
      intros ev Hev. by apply Ha.
    + destruct (io_result _); [constructor|].
      rewrite io_trace_bind. apply Forall_app. split; [done|].
      destruct (io_result _); constructor.
Qed.

Lemma starmap_trace_paths E self choice_args (P : path → Prop) :
  Forall (λ a : list path * rule, ∀ f, f ∈ a.1 → P f) choice_args →
  Forall (λ ev, P (event_path ev)) (io_trace (starmap E self choice_args)).
Proof. intros H. rewrite starmap_trace. by apply mapstar_trace_paths. Qed.

Lemma scan_trace_starmap E self paths (P : event → Prop) :
  (∀ choice_args,
     build_choice_args self paths (scan_rules self) = inr choice_args →
     Forall P (io_trace (starmap E self choice_args))) →
  Forall P (io_trace (scan E self paths)).
Proof.
  intros HP. rewrite scan_eq.
  destruct (scan_rules self) as [|r0 rules] eqn:Hr; [constructor|].
  destruct paths as [|p0 paths]; [constructor|]. rewrite <- Hr in HP |- *.
  rewrite io_trace_bind, io_trace_lift, io_result_lift, app_nil_l.
  destruct (validate_rules _); [constructor|].
  rewrite io_trace_bind, io_trace_lift, io_result_lift, app_nil_l.
  destruct (build_choice_args _ _ _) as [|args] eqn:Hargs; [constructor|].
  rewrite io_trace_bind. apply Forall_app. split; [by apply HP|].
  destruct (io_result _) as [|results]; [constructor|].
  rewrite io_trace_bind, io_trace_lift, io_result_lift, app_nil_l.
  destruct (add_finding _ _ _); constructor.
Qed.

(** X3.  [scan] touches no file but the ones it is given: every [stat],
    read and matcher call is on a path of [paths] or on the configured
    alternative path. *)
Theorem scan_touches_only_given_files E self paths :
  Forall (λ ev, event_path ev ∈ paths ∨
                alternative_path self = Some (event_path ev))
    (io_trace (scan E self paths)).
Proof.
  apply scan_trace_starmap. intros choice_args Hargs.
  apply (starmap_trace_paths E self choice_args
           (λ f, f ∈ paths ∨ alternative_path self = Some f)).
  apply build_choice_args_inv in Hargs as [_ Hall].
  eapply Forall_impl; [exact Hall|].
  intros [sp r] (ty & _ & Hsp) f Hf. simpl in *. subst sp.
  destruct (negb _), (alternative_path self) as [alt|]; auto.
  apply list_elem_of_singleton in Hf as ->. by right.
Qed.

(** X4.  When an alternative path is configured and no rule is of type
    ['code'], [scan] touches the alternative path only: the files of [paths]
    are not looked at. *)
Theorem non_code_rules_scan_alternative_path_only E self paths alt :
  alternative_path self = Some alt →
  (∀ (d : rule) ty, PDict d ∈ scan_rules self → d !! "type" = Some ty →
                    ty ≠ PStr "code") →
  Forall (λ ev, event_path ev = alt) (io_trace (scan E self paths)).
Proof.
  intros Halt Hnon. apply scan_trace_starmap. intros choice_args Hargs.
  apply (starmap_trace_paths E self choice_args (λ f, f = alt)).
  apply build_choice_args_inv in Hargs as [Hrules Hall].
  apply Forall_forall. intros [sp r] Ha f Hf.
  rewrite Forall_forall in Hall.
  destruct (Hall _ Ha) as (ty & Hty & Hsp). simpl in *.
  assert (is_str ty "code" = false) as Hcode.
  { apply not_true_iff_false. rewrite is_str_true. apply (Hnon r); [|done].
    rewrite Hrules. apply list_elem_of_fmap. exists r. split; [done|].
    apply list_elem_of_fmap. by exists (sp, r). }
  rewrite Hcode, Halt in Hsp. subst sp.
  by apply list_elem_of_singleton in Hf.
Qed.

(** ** The order of the accesses *)

Lemma well_ordered_prefix (l l' : list event) :
  well_ordered l → l' `prefix_of` l → well_ordered l'.
Proof.
  intros Hl [k ->] before ev after ->.
  apply (Hl before ev (after ++ k)). by rewrite <- app_assoc.
Qed.

Lemma well_ordered_file sfile :
  well_ordered [EvStat sfile; EvReadText sfile; EvFindChoices sfile].
Proof.
  intros before ev after H.
  destruct before as [|e1 [|e2 [|e3 before]]]; simplify_eq/=; try done.
  by destruct before.
Qed.

Lemma well_ordered_app (t t' : list event) :
  well_ordered t → well_ordered t' →
  (∀ ev rest, t' = ev :: rest → ∃ p, ev = EvStat p) →
  well_ordered (t ++ t').
Proof.
  intros Ht Ht' Hhead before ev after H.
  apply app_eq_inv in H as [(k & -> & Hk)|(k & -> & Hk)].
  - destruct k as [|e k]; simpl in Hk.
    + destruct (Hhead ev after) as [p ->]; done.
    + injection Hk as -> ->. by apply (Ht before e k).
  - specialize (Ht' k ev after Hk).
    destruct ev as [p|p|p]; simpl in *; [done|..];
      by rewrite last_app, Ht'.
Qed.

Lemma file_match_trace_head E self (r : rule) sfile ev rest :
  io_trace (file_match E self r sfile) = ev :: rest → ∃ p, ev = EvStat p.
Proof.
  destruct (file_match_trace_prefix E self r sfile) as [k Hk].
  intros H. rewrite H in Hk. injection Hk as <- _. eauto.
Qed.

Lemma scan_files_trace_head E self (r : rule) st scan_paths ev rest :
  io_trace (scan_files E self r st scan_paths) = ev :: rest →
  ∃ p, ev = EvStat p.
Proof.
  revert st. induction scan_paths as [|sfile l IH]; intros st; [done|].
  simpl. rewrite io_trace_bind, scan_file_trace.
  destruct (io_trace (file_match E self r sfile)) as [|e t] eqn:Ht.
  - rewrite app_nil_l. destruct (io_result _); [done|apply IH].
  - intros [= <- _]. by eapply file_match_trace_head.
Qed.

Lemma scan_files_well_ordered E self (r : rule) st scan_paths :
  well_ordered (io_trace (scan_files E self r st scan_paths)).
Proof.
  revert st. induction scan_paths as [|sfile l IH]; intros st; simpl.
  - by intros [|??] ???.
  - rewrite io_trace_bind, scan_file_trace. apply well_ordered_app.
    + eapply well_ordered_prefix;
        [apply well_ordered_file|apply file_match_trace_prefix].
    + destruct (io_result _); [by intros [|??] ???|apply IH].
    + destruct (io_result _); [done|]. intros ev rest.
      apply scan_files_trace_head.
Qed.

(** X5.  Within the task of a rule, a file is read only right after its own
    [stat] (the size check) and is given to the pattern matcher only right
    after it was read; no read or matcher call happens without them.  The
    tasks of different rules run in parallel worker processes, so this is a
    property of each task, not of the accesses of a whole [scan] put in one
    sequence. *)
Theorem accesses_are_ordered E self scan_paths (r : rule) before ev after :
  io_trace (choice_matcher E self scan_paths r) = before ++ ev :: after →
  match ev with
  | EvStat _ => True
  | EvReadText p => last before = Some (EvStat p)
  | EvFindChoices p => last before = Some (EvReadText p)
  end.
Proof.
  revert before ev after.
  change (well_ordered (io_trace (choice_matcher E self scan_paths r))).
  rewrite choice_matcher_trace. apply scan_files_well_ordered.
Qed.

(** ** What aggregation changes *)

Section aggregation.
Context (E : Externals).

Lemma add_match_dict_frame (rules : list pyobj) fs md fs' :
  add_match_dict E fs md = inr fs' →
  PDict (md_rule md) ∈ rules →
  (∀ k, k ∈ dom fs → k ∈ dom fs') ∧
  (∀ k, ¬ rule_id_key rules k → fs' !! k = fs !! k).
Proof.
  intros [[_ ->]|(sel & id & key & meta & _ & _ & Hid & Hkey & ->)]%add_match_dict_inv
    Hin; [done|].
  split.
  - intros k Hk. rewrite dom_insert_L. apply elem_of_union. by right.
  - intros k Hk. apply lookup_insert_ne. intros ->. apply Hk.
    by exists (md_rule md), id.
Qed.

Lemma add_res_list_frame (rules : list pyobj) fs res_list fs' :
  add_res_list E fs res_list = inr fs' →
  Forall (λ md, PDict (md_rule md) ∈ rules) res_list →
  (∀ k, k ∈ dom fs → k ∈ dom fs') ∧
  (∀ k, ¬ rule_id_key rules k → fs' !! k = fs !! k).
Proof.
  intros H Hall. revert fs H.
  induction Hall as [|md rest Hmd _ IH]; intros fs H; simpl in H.
  - by injection H as <-.
  - apply exn_bind_inv in H as (fs1 & H1 & H).
    destruct (add_match_dict_frame rules _ _ _ H1 Hmd) as [Hd1 Hf1].
    destruct (IH _ H) as [Hd Hf]. split.
    + intros k Hk. by apply Hd, Hd1.
    + intros k Hk. by rewrite Hf, Hf1.
Qed.

Lemma add_finding_frame (rules : list pyobj) fs results fs' :
  add_finding E fs results = inr fs' →
  Forall (Forall (λ md, PDict (md_rule md) ∈ rules)) results →
  (∀ k, k ∈ dom fs → k ∈ dom fs') ∧
  (∀ k, ¬ rule_id_key rules k → fs' !! k = fs !! k).
Proof.
  intros H Hall. revert fs H.
  induction Hall as [|res_list rest Hres _ IH]; intros fs H; simpl in H.
  - by injection H as <-.
  - destruct res_list as [|md res_list]; [by apply IH|].
    apply exn_bind_inv in H as (fs1 & H1 & H).
    destruct (add_res_list_frame rules _ _ _ H1 Hres) as [Hd1 Hf1].
    destruct (IH _ H) as [Hd Hf]. split.
    + intros k Hk. by apply Hd, Hd1.
    + intros k Hk. by rewrite Hf, Hf1.
Qed.

(** X6.  A [scan] that returns changes nothing of the matcher but
    [self.findings] (and, only when progress is shown, [self.scan_rules],
    which is then rebound to what the progress loop yields), and of the
    findings it only adds or replaces entries under the ids of its rules: no
    finding of an earlier [scan] is removed, and an entry under a key that
    is no rule's id is left as it was. *)
Theorem scan_changes_only_findings self paths x self' :
  io_result (scan E self paths) = inr (x, self') →
  (show_progress self = false → scan_rules self' = scan_rules self) ∧
  show_progress self' = show_progress self ∧
  alternative_path self' = alternative_path self ∧
  exts self' = exts self ∧
  (∀ k, k ∈ dom (findings self) → k ∈ dom (findings self')) ∧
  (∀ k, ¬ rule_id_key (scan_rules self) k →
        findings self' !! k = findings self !! k).
Proof.
  intros H.
  enough (scan_rules self' = scan_rules self ∧
          show_progress self' = show_progress self ∧
          alternative_path self' = alternative_path self ∧
          exts self' = exts self ∧
          (∀ k, k ∈ dom (findings self) → k ∈ dom (findings self')) ∧
          (∀ k, ¬ rule_id_key (scan_rules self) k →
                findings self' !! k = findings self !! k)) as [Hsr Hrest]
    by (split; [intros _; exact Hsr|exact Hrest]).
  destruct (scan_rules self) as [|r0 rules] eqn:Hr.
  { rewrite scan_without_rules_returns_none in H by done.
    injection H as _ <-. by rewrite Hr. }
  destruct paths as [|p0 paths].
  { rewrite scan_eq, Hr in H. injection H as _ <-. by rewrite Hr. }
  rewrite scan_result in H by (by rewrite ?Hr).
  apply exn_bind_inv in H as (? & _ & H).
  apply exn_bind_inv in H as (choice_args & Hargs & H).
  apply exn_bind_inv in H as (results & Hres & H).
  apply exn_bind_inv in H as (fs0 & Hadd & H).
  injection H as _ <-. simpl. rewrite Hr. repeat (split; [done|]).
  rewrite <- Hr.
  apply (add_finding_frame (scan_rules self) _ results); [done|].
  eapply starmap_rules; [done|].
  by apply (build_choice_args_rules _ _ _ _ Hargs).
Qed.

Lemma add_match_dict_idem fs md fs1 :
  add_match_dict E fs md = inr fs1 → add_match_dict E fs1 md = inr fs1.
Proof.
  unfold add_match_dict. intros H.
  apply exn_bind_inv in H as ([selection|] & Hsel & H); rewrite Hsel.
  - apply exn_bind_inv in H as (meta & Hmeta & H).
    apply exn_bind_inv in H as (id & Hid & H).
    apply exn_bind_inv in H as (key & Hkey & H).
    injection H as <-.
    rewrite exn_bind_inr, Hmeta, exn_bind_inr, Hid, exn_bind_inr, Hkey.
    rewrite exn_bind_inr. unfold mret, exn_ret. f_equal.
    apply insert_insert_eq.
  - by injection H as <-.
Qed.

Lemma add_res_list_replicate fs md n :
  add_res_list E fs (replicate (S n) md) = add_match_dict E fs md.
Proof.
  revert fs. induction n as [|n IH]; intros fs.
  - simpl. by destruct (add_match_dict E fs md).
  - rewrite replicate_S. cbn [add_res_list].
    destruct (add_match_dict E fs md) as [e|fs1] eqn:H1; [done|].
    rewrite exn_bind_inr, IH. by apply (add_match_dict_idem fs).
Qed.

Lemma fmap_all_equal {A B} (f : A → B) (l : list A) (a : A) :
  Forall (λ x, x = a) l → f <$> l = replicate (length l) (f a).
Proof. induction 1 as [|x l -> _ IH]; csimpl; [done|by rewrite IH]. Qed.

(** X7.  The dicts a task returns are all the same record (they share the
    rule and the two sets), and aggregating them gives exactly what
    aggregating a single one of them gives. *)
Theorem task_records_are_redundant self scan_paths (r : rule) md rest fs :
  io_result (choice_matcher E self scan_paths r) = inr (md :: rest) →
  md :: rest = replicate (S (length rest)) md ∧
  add_finding E fs [md :: rest] = add_match_dict E fs md.
Proof.
  rewrite choice_matcher_result.
  destruct (io_result (scan_files _ _ _ _ _)) as [|st] eqn:Hst; [done|].
  intros [= Hres]. apply scan_files_results in Hst; [|constructor].
  unfold match_dicts in Hres.
  rewrite (fmap_all_equal _ _ r Hst) in Hres.
  destruct (length (st_results st)) as [|n] eqn:Hlen; [done|].
  rewrite replicate_S in Hres. injection Hres as Hmd Hrest.
  rewrite Hmd in Hrest. subst rest. clear Hmd.
  rewrite length_replicate. split; [done|].
  change (add_finding E fs [md :: replicate n md])
    with (add_res_list E fs (replicate (S n) md) ≫= λ fs', add_finding E fs' []).
  rewrite add_res_list_replicate. by destruct (add_match_dict E fs md).
Qed.

Lemma add_res_list_app fs l1 l2 :
  add_res_list E fs (l1 ++ l2) =
  add_res_list E fs l1 ≫= λ fs1, add_res_list E fs1 l2.
Proof.
  revert fs. induction l1 as [|md l1 IH]; intros fs; [done|].
  simpl. destruct (add_match_dict E fs md); [done|]. apply IH.
Qed.

Lemma add_finding_app fs r1 r2 :
  add_finding E fs (r1 ++ r2) =
  add_finding E fs r1 ≫= λ fs1, add_finding E fs1 r2.
Proof.
  revert fs. induction r1 as [|res r1 IH]; intros fs; [done|].
  simpl. destruct res as [|md res]; [apply IH|].
  destruct (add_res_list E fs (md :: res)); [done|]. apply IH.
Qed.

(** X8.  Last write wins: after aggregation, the entry under the id of the
    last record processed is the finding of that record, whatever the
    records before it (of the same rule or of another rule with the same id)
    had stored there. *)
Theorem last_record_wins fs results res_list md selection fs' :
  add_finding E fs (results ++ [res_list ++ [md]]) = inr fs' →
  selection_of E md = inr (Some selection) →
  ∃ id key meta,
    md_rule md !! "id" = Some id ∧ to_key id = inr key ∧
    get_meta (md_rule md) selection = inr meta ∧
    fs' !! key = Some meta.
Proof.
  intros H Hsel. rewrite add_finding_app in H.
  apply exn_bind_inv in H as (fs1 & _ & H).
  assert (add_res_list E fs1 (res_list ++ [md]) = inr fs') as H'.
  { simpl in H. destruct (res_list ++ [md]) eqn:Hl.
    - by destruct res_list.
    - by destruct (add_res_list E fs1 (m :: l)). }
  rewrite add_res_list_app in H'.
  apply exn_bind_inv in H' as (fs2 & _ & H'). simpl in H'.
  apply exn_bind_inv in H' as (fs3 & H3 & [= <-]).
  apply add_match_dict_inv in H3
    as [[H3 _]|(sel & id & key & meta & H3 & Hmeta & Hid & Hkey & ->)];
    rewrite Hsel in H3; [done|]. injection H3 as <-.
  exists id, key, meta. by rewrite lookup_insert_eq.
Qed.

End aggregation.

(** ** What a task collects *)

Section collection.
Context (E : Externals) (self : ChoiceMatcher) (r : rule).

Lemma apply_match_matches st m x :
  x ∈ st_matches (apply_match r st m) ↔
  x ∈ st_matches st ∨ ∃ rest, m = Some (MList (x :: rest)).
Proof.
  destruct m as [[s|[|y l]|b]|]; simpl.
  - split; [by left|]. by intros [?|[? ?]].
  - split; [by left|]. by intros [?|[? ?]].
  - rewrite elem_of_union, elem_of_singleton. split.
    + intros [?| ->]; [by left|right; by exists l].
    + intros [?|[? [= -> _]]]; [by left|by right].
  - split; [by left|]. by intros [?|[? ?]].
  - split; [by left|]. by intros [?|[? ?]].
Qed.

Lemma apply_match_all_matches st m t :
  t ∈ st_all_matches (apply_match r st m) ↔
  t ∈ st_all_matches st ∨ ∃ s, m = Some (MSet s) ∧ t ∈ s.
Proof.
  destruct m as [[s|l|b]|]; simpl.
  - rewrite elem_of_union. split.
    + intros [?|?]; [by left|right; by exists s].
    + intros [?|(? & [= <-] & ?)]; [by left|by right].
  - split; [by left|]. by intros [?|(? & ? & _)].
  - split; [by left|]. by intros [?|(? & ? & _)].
  - split; [by left|]. by intros [?|(? & ? & _)].
Qed.

Lemma apply_match_results st m :
  st_results (apply_match r st m) = [] ↔ st_results st = [] ∧ m = None.
Proof.
  destruct m as [m|]; simpl.
  - split; [|by intros [_ ?]]. intros H. by apply app_nil in H as [_ ?].
  - split; [done|by intros [? _]].
Qed.

Lemma scan_files_state st scan_paths st' :
  io_result (scan_files E self r st scan_paths) = inr st' →
  (∀ x, x ∈ st_matches st' ↔
        x ∈ st_matches st ∨
        ∃ f rest, f ∈ scan_paths ∧
          io_result (file_match E self r f) = inr (Some (MList (x :: rest)))) ∧
  (∀ t, t ∈ st_all_matches st' ↔
        t ∈ st_all_matches st ∨
        ∃ f s, f ∈ scan_paths ∧
          io_result (file_match E self r f) = inr (Some (MSet s)) ∧ t ∈ s) ∧
  (st_results st' = [] ↔
     st_results st = [] ∧
     ∀ f, f ∈ scan_paths → io_result (file_match E self r f) = inr None).
Proof.
  revert st. induction scan_paths as [|f0 l IH]; intros st H.
  - injection H as <-. split; [|split].
    + intros x. split; [by left|]. intros [?|(f & ? & Hf & _)]; [done|].
      by apply elem_of_nil in Hf.
    + intros t. split; [by left|]. intros [?|(f & ? & Hf & _)]; [done|].
      by apply elem_of_nil in Hf.
    + split; [|by intros [? _]]. intros ?. split; [done|].
      intros f Hf. by apply elem_of_nil in Hf.
  - rewrite scan_files_result_cons in H.
    apply exn_bind_inv in H as (m & Hm & H).
    destruct (IH _ H) as (IHm & IHa & IHr). split; [|split].
    + intros x. rewrite IHm, apply_match_matches. split.
      * intros [[?|[rest ->]]|(f & rest & Hf & Hfm)].
        -- by left.
        -- right. exists f0, rest. split; [by left|done].
        -- right. exists f, rest. split; [by right|done].
      * intros [?|(f & rest & Hf & Hfm)]; [by left; left|].
        apply elem_of_cons in Hf as [-> |Hf].
        -- left. right. exists rest. congruence.
        -- right. by exists f, rest.
    + intros t. rewrite IHa, apply_match_all_matches. split.
      * intros [[?|(s & -> & ?)]|(f & s & Hf & Hfm & ?)].
        -- by left.
        -- right. exists f0, s. split; [by left|done].
        -- right. exists f, s. split; [by right|done].
      * intros [?|(f & s & Hf & Hfm & ?)]; [by left; left|].
        apply elem_of_cons in Hf as [-> |Hf].
        -- left. right. exists s. split; [congruence|done].
        -- right. by exists f, s.
    + rewrite IHr, apply_match_results. split.
      * intros [[? ->] Hl]. split; [done|].
        intros f [-> |Hf]%elem_of_cons; [done|by apply Hl].
      * intros [? Hl]. split; [split; [done|]|].
        -- specialize (Hl f0 ltac:(by left)). congruence.
        -- intros f Hf. apply Hl. by right.
Qed.

(** X9.  What a task that completes collects.  It returns no record exactly
    when no file gave a match.  Otherwise every record carries the rule, in
    [matches] exactly the first elements of the lists the matcher returned
    (one index per matching file), and in [all_matches] exactly the union of
    the sets it returned. *)
Theorem task_collects scan_paths res :
  io_result (choice_matcher E self scan_paths r) = inr res →
  (res = [] ↔
     ∀ f, f ∈ scan_paths → io_result (file_match E self r f) = inr None) ∧
  Forall (λ md,
     md_rule md = r ∧
     (∀ x, x ∈ md_matches md ↔
           ∃ f rest, f ∈ scan_paths ∧
             io_result (file_match E self r f) = inr (Some (MList (x :: rest)))) ∧
     (∀ t, t ∈ md_all_matches md ↔
           ∃ f s, f ∈ scan_paths ∧
             io_result (file_match E self r f) = inr (Some (MSet s)) ∧ t ∈ s))
    res.
Proof.
  intros H. pose proof (choice_matcher_rules E self _ _ _ H) as Hrules.
  rewrite choice_matcher_result in H.
  destruct (io_result (scan_files _ _ _ _ _)) as [|st] eqn:Hst; [done|].
  injection H as <-.
  destruct (scan_files_state _ _ _ Hst) as (Hm & Ha & Hr). split.
  - unfold match_dicts. split.
    + intros Hnil%fmap_nil_inv. by apply Hr in Hnil as [_ ?].
    + intros Hnone. by rewrite (proj2 Hr).
  - apply Forall_forall. intros md Hmd. split.
    { rewrite Forall_forall in Hrules. by apply Hrules. }
    unfold match_dicts in Hmd.
    apply list_elem_of_fmap in Hmd as (r' & -> & _). simpl. split.
    + intros x. rewrite Hm. simpl. split; [|by right].
      intros [?|?]; [by apply not_elem_of_empty in H|done].
    + intros t. rewrite Ha. simpl. split; [|by right].
      intros [?|?]; [by apply not_elem_of_empty in H|done].
Qed.

Lemma choice_matcher_single_trace sfile :
  io_trace (choice_matcher E self [sfile] r) =
  io_trace (file_match E self r sfile).
Proof.
  rewrite choice_matcher_trace. simpl.
  rewrite io_trace_bind, scan_file_trace.
  destruct (io_result _); simpl; by rewrite app_nil_r.
Qed.

(** X10.  The size limit is strict and is the only size test: a file that
    passes the extension filter and has a size is read exactly when its size
    is at most 5 * 1000 * 1000 bytes. *)
Theorem file_within_limit_is_read sfile st_size :
  ext_filtered self (lower (suffix sfile)) = false →
  fs_stat E sfile = inr st_size →
  EvReadText sfile ∈ io_trace (choice_matcher E self [sfile] r) ↔
  st_size ≤ 5 * 1000 * 1000.
Proof.
  intros Hext Hstat. rewrite choice_matcher_single_trace.
  unfold file_match. rewrite Hext. io_unfold. rewrite Hstat.
  destruct (too_big st_size) eqn:Hbig.
  - apply too_big_spec in Hbig. simpl. split; [|lia].
    intros [[=]|H]%elem_of_cons. by apply elem_of_nil in H.
  - apply too_big_false in Hbig. split; [done|]. intros _.
    destruct (fs_read_text E sfile); simpl; [by right; left|].
    destruct (if bool_decide _ then _ else _); simpl; [by right; left|].
    destruct (find_choices _ _ _); by right; left.
Qed.

End collection.

Lemma ext_filtered_false self ext :
  ext_filtered self ext = false ↔ exts self = [] ∨ ext ∈ exts self.
Proof.
  rewrite <- not_true_iff_false, ext_filtered_true.
  destruct (exts self) as [|e es]; [by split; [left|intros _ [? _]]|].
  split.
  - intros H. right. destruct (decide (ext ∈ e :: es)); [done|].
    by destruct H.
  - intros [?|?] [_ ?]; done.
Qed.

(** X11.  Whether a file is looked at at all depends on its suffix alone,
    compared without regard to case: a task examines (calls [stat] on) a file
    exactly when the configured allow-list is empty or absent, or contains
    the file's suffix up to case. *)
Theorem file_is_examined_iff_extension_allowed E options (r : rule) sfile :
  EvStat sfile ∈ io_trace (choice_matcher E (init options) [sfile] r) ↔
  default [] (choice_extensions options) = [] ∨
  lower (suffix sfile) ∈ lower <$> default [] (choice_extensions options).
Proof.
  rewrite choice_matcher_single_trace.
  assert (EvStat sfile ∈ io_trace (file_match E (init options) r sfile) ↔
          ext_filtered (init options) (lower (suffix sfile)) = false) as ->.
  { unfold file_match.
    destruct (ext_filtered (init options) _).
    - split; [|done]. intros H. by apply elem_of_nil in H.
    - split; [done|]. intros _. io_unfold.
      destruct (fs_stat E sfile) as [?|sz]; [by left|].
      destruct (too_big sz); [by left|].
      destruct (fs_read_text E sfile); [by left|]; simpl.
      destruct (if bool_decide _ then _ else _); [by left|]; simpl.
      destruct (find_choices _ _ _); by left. }
  rewrite ext_filtered_false, init_exts.
  destruct (default [] (choice_extensions options)) as [|e es]; [done|].
  split; intros [?|?]; by auto.
Qed.

(** ** Bounds and missing keys in aggregation *)

(** X12.  The smallest matched index is used as a Python index into
    [choice]: an index below [-len(choice)] or from [len(choice)] on raises
    [IndexError]; a negative index from [-len(choice)] on counts from the end
    of [choice]. *)
Theorem choice_index_bounds (r : rule) (choice : list pyval) (matches : gset Z) (idx : Z) :
  r !! "choice" = Some (PList choice) →
  py_min matches = inr idx →
  (idx < - Z.of_nat (length choice) ∨ Z.of_nat (length choice) ≤ idx →
     select_label r matches = inl (Exn IndexError "list index out of range")) ∧
  (- Z.of_nat (length choice) ≤ idx < 0 →
     ∃ entry, choice !! Z.to_nat (Z.of_nat (length choice) + idx) = Some entry ∧
              select_label r matches = getitem entry 1).
Proof.
  intros Hchoice Hmin. unfold select_label, dict_getitem.
  rewrite Hchoice, exn_bind_inr, Hmin, exn_bind_inr. simpl. unfold py_index.
  split.
  - intros Hout.
    destruct (0 <=? idx) eqn:H0, (idx <? Z.of_nat (length choice)) eqn:H1;
      destruct (- Z.of_nat (length choice) <=? idx) eqn:H2,
               (idx <? 0) eqn:H3; simpl; try done; lia.
  - intros Hneg.
    rewrite (proj2 (Z.leb_gt _ _)) by lia. simpl.
    rewrite (proj2 (Z.leb_le _ _)), (proj2 (Z.ltb_lt _ _)) by lia. simpl.
    destruct (choice !! Z.to_nat (Z.of_nat (length choice) + idx))
      as [entry|] eqn:Hl.
    + by exists entry.
    + apply lookup_ge_None in Hl. lia.
Qed.

(** X13.  [validate_rules] does not ask for a [message], but [get_meta]
    reads it: for a single well-formed rule without a [message], as soon as
    the task returns a record that yields a selection, [scan] raises
    [KeyError('message')] (not wrapped as a rule-processing error). *)
Theorem rule_without_message_fails_scan E options (r : rule) paths md rest selection :
  choice_rules options = [PDict r] → well_formed (PDict r) →
  opt_alternative_path options = None → paths ≠ [] →
  r !! "message" = None →
  io_result (choice_matcher E (init options) paths r) = inr (md :: rest) →
  selection_of E md = inr (Some selection) →
  io_result (scan E (init options) paths) = inl (Exn KeyError "message").
Proof.
  intros Hrules Hwf Halt Hpaths Hmsg Htask Hsel.
  assert (md_rule md = r) as Hmd.
  { pose proof (choice_matcher_rules E _ _ _ _ Htask) as Hall.
    by apply Forall_cons in Hall as [? _]. }
  assert (add_finding E (findings (init options)) [md :: rest]
          = inl (Exn KeyError "message")) as Hadd.
  { cbn [add_finding add_res_list]. unfold add_match_dict.
    rewrite Hsel, exn_bind_inr, Hmd. unfold get_meta, dict_getitem.
    by rewrite Hmsg. }
  assert (scan_rules (init options) = [PDict r]) as Hsr by done.
  rewrite scan_result by (by rewrite ?Hsr). rewrite Hsr.
  cbn [validate_rules build_choice_args].
  rewrite (well_formed_valid _ Hwf), !exn_bind_inr.
  destruct Hwf as (d & [= <-] & Hwf).
  assert (get_truthy r "type" = true) as Hty by (apply Hwf; elem_of_list).
  unfold get_truthy in Hty. unfold dict_getitem at 1.
  destruct (r !! "type") as [ty|]; [|done]. rewrite !exn_bind_inr.
  change (alternative_path (init options)) with (opt_alternative_path options).
  rewrite Halt.
  destruct (negb (is_str ty "code")); unfold mret, exn_ret;
    rewrite !exn_bind_inr, (starmap_singleton_inr E _ paths r _ Htask);
    by rewrite exn_bind_inr, Hadd.
Qed.

(** ** A scan in which nothing matches *)

Lemma validate_rules_well_formed (rules : list pyobj) :
  Forall well_formed rules → validate_rules rules = inr ().
Proof.
  induction 1 as [|r0 rules Hr _ IH]; simpl; [done|].
  by rewrite (well_formed_valid r0 Hr).
Qed.

Lemma build_choice_args_ok self paths (rules : list pyobj) :
  Forall well_formed rules →
  ∃ choice_args, build_choice_args self paths rules = inr choice_args.
Proof.
  induction 1 as [|r0 rules (d & -> & Hd) _ [args IH]]; simpl; [by eexists|].
  assert (get_truthy d "type" = true) as Hty by (apply Hd; elem_of_list).
  unfold get_truthy in Hty. unfold dict_getitem.
  destruct (d !! "type") as [ty|]; [|done].
  rewrite exn_bind_inr, IH, exn_bind_inr. by eexists.
Qed.

Lemma mapstar_no_match E self choice_args :
  Forall (λ a : list path * rule,
            ∀ f, f ∈ a.1 → io_result (file_match E self a.2 f) = inr None)
         choice_args →
  io_result (mapstar E self choice_args) =
  inr (replicate (length choice_args) []).
Proof.
  induction 1 as [|[sp r] l Ha _ IH]; [done|].
  cbn [mapstar]. rewrite io_result_bind, choice_matcher_result.
  rewrite (scan_files_no_match E self r initial_state sp Ha).
  rewrite exn_bind_inr, io_result_bind, IH. done.
Qed.

Lemma starmap_no_match E self choice_args :
  Forall (λ a : list path * rule,
            ∀ f, f ∈ a.1 → io_result (file_match E self a.2 f) = inr None)
         choice_args →
  io_result (starmap E self choice_args) =
  inr (replicate (length choice_args) []).
Proof.
  intros H. by rewrite starmap_result, (mapstar_no_match E self choice_args H).
Qed.

Lemma add_finding_empties E fs n :
  add_finding E fs (replicate n []) = inr fs.
Proof. induction n as [|n IH]; [done|apply IH]. Qed.

(** X14.  When no file gives a match for any rule, a [scan] over well-formed
    rules returns the findings the matcher already had and leaves them as
    they were: no rule gets an entry, whether or not it declares an [else]
    default. *)
Theorem scan_without_matches_keeps_findings E self paths :
  scan_rules self ≠ [] → paths ≠ [] →
  Forall well_formed (scan_rules self) →
  (∀ (d : rule) f, PDict d ∈ scan_rules self →
     f ∈ paths ∨ alternative_path self = Some f →
     io_result (file_match E self d f) = inr None) →
  ∃ self', io_result (scan E self paths) = inr (Some (findings self), self') ∧
           findings self' = findings self.
Proof.
  intros Hr Hp Hwf Hnone. rewrite scan_result by done.
  rewrite (validate_rules_well_formed _ Hwf), exn_bind_inr.
  destruct (build_choice_args_ok self paths _ Hwf) as [args Hargs].
  rewrite Hargs, exn_bind_inr.
  rewrite (starmap_no_match E self args), exn_bind_inr.
  - rewrite add_finding_empties, exn_bind_inr. by eexists.
  - pose proof (build_choice_args_rules self paths _ _ Hargs) as Hin.
    apply build_choice_args_inv in Hargs as [_ Hall].
    rewrite Forall_forall in Hin, Hall. apply Forall_forall.
    intros [sp r] Ha f Hf. simpl.
    destruct (Hall _ Ha) as (ty & _ & Hsp). simpl in Hsp.
    apply Hnone; [by apply (Hin _ Ha)|]. subst sp.
    destruct (negb _), (alternative_path self) as [alt|]; auto.
    apply list_elem_of_singleton in Hf as ->. by right.
Qed.

(** ** Instances of the further properties *)

(** X2 at the two-file scenario: one rule, one task, one result list. *)
Lemma one_task_per_rule_witness :
  let self := init (Demo.options_of [Demo.sdk_rule] None) in
  let md := {| md_rule := Demo.sdk_rule; md_matches := {[ 0; 1 ]};
               md_all_matches := ∅ |} in
  let choice_args := [([Demo.a_java; Demo.b_java], Demo.sdk_rule)] in
  scan_rules self = PDict <$> (snd <$> choice_args) ∧
  Forall2 (λ (a : list path * rule) res,
             io_result (choice_matcher (Demo.world Demo.files) self a.1 a.2)
             = inr res)
          choice_args [[md; md]].
Proof.
  intros self md choice_args.
  apply (one_task_per_rule (Demo.world Demo.files) self
           [Demo.a_java; Demo.b_java] choice_args [[md; md]]).
  - vm_compute. reflexivity.
  - vm_compute. reflexivity.
Defined.

(** X4 at a rule of type "manifest" with the Kotlin file as alternative
    path. *)
Lemma non_code_rules_scan_alternative_path_only_witness :
  Forall (λ ev, event_path ev = Demo.d_kt)
    (io_trace (scan (Demo.world Demo.files)
                 (init (Demo.options_alt [Demo.manifest_rule] Demo.d_kt))
                 [Demo.a_java])).
Proof.
  apply (non_code_rules_scan_alternative_path_only (Demo.world Demo.files)
           (init (Demo.options_alt [Demo.manifest_rule] Demo.d_kt))
           [Demo.a_java] Demo.d_kt).
  - reflexivity.
  - intros d ty Hd Hty.
    change (PDict d ∈ [PDict Demo.manifest_rule]) in Hd.
    apply list_elem_of_singleton in Hd. injection Hd as ->.
    assert (Demo.manifest_rule !! "type" = Some (PStr "manifest")) as Ht
      by reflexivity.
    rewrite Ht in Hty. injection Hty as <-. discriminate.
Defined.

(** X5 at the read of the one file of a task. *)
Lemma accesses_are_ordered_witness :
  last [EvStat Demo.a_java] = Some (EvStat Demo.a_java).
Proof.
  apply (accesses_are_ordered (Demo.world Demo.files)
           (init (Demo.options_of [Demo.sdk_rule] None)) [Demo.a_java]
           Demo.sdk_rule
           [EvStat Demo.a_java] (EvReadText Demo.a_java)
           [EvFindChoices Demo.a_java]).
  vm_compute. reflexivity.
Defined.

(** X6 at the two-file scenario. *)
Lemma scan_changes_only_findings_witness :
  let self := init (Demo.options_of [Demo.sdk_rule] None) in
  let fs : gmap pykey rule :=
    {[ KStr "sdk" := <["description" := PStr "Target SDK"]>
                       (<["choice" := PStr "Target SDK: Marshmallow"]> ∅) ]} in
  let self' := set_findings self fs in
  scan_rules self' = scan_rules self ∧
  show_progress self' = show_progress self ∧
  alternative_path self' = alternative_path self ∧
  exts self' = exts self ∧
  (∀ k, k ∈ dom (findings self) → k ∈ dom (findings self')) ∧
  (∀ k, ¬ rule_id_key (scan_rules self) k →
        findings self' !! k = findings self !! k).
Proof.
  intros self fs self'.
  destruct (scan_changes_only_findings (Demo.world Demo.files) self
              [Demo.a_java; Demo.b_java] (Some fs) self') as [Hsr Hrest].
  - vm_compute. reflexivity.
  - split; [apply Hsr; reflexivity|exact Hrest].
Defined.

(** X7 at the two records of the two-file scenario. *)
Lemma task_records_are_redundant_witness :
  let md := {| md_rule := Demo.sdk_rule; md_matches := {[ 0; 1 ]};
               md_all_matches := ∅ |} in
  md :: [md] = replicate 2 md ∧
  add_finding (Demo.world Demo.files) ∅ [md :: [md]] =
  add_match_dict (Demo.world Demo.files) ∅ md.
Proof.
  intros md.
  apply (task_records_are_redundant (Demo.world Demo.files)
           (init (Demo.options_of [Demo.sdk_rule] None))
           [Demo.a_java; Demo.b_java] Demo.sdk_rule md [md] ∅).
  vm_compute. reflexivity.
Defined.

(** X8 at a record that selects "Lollipop" followed by one that selects
    "Marshmallow". *)
Lemma last_record_wins_witness :
  let md1 := {| md_rule := Demo.sdk_rule; md_matches := {[ 1 ]};
                md_all_matches := ∅ |} in
  let md0 := {| md_rule := Demo.sdk_rule; md_matches := {[ 0 ]};
                md_all_matches := ∅ |} in
  let fs' : gmap pykey rule :=
    {[ KStr "sdk" := <["description" := PStr "Target SDK"]>
                       (<["choice" := PStr "Target SDK: Marshmallow"]> ∅) ]} in
  ∃ id key meta,
    md_rule md0 !! "id" = Some id ∧ to_key id = inr key ∧
    get_meta (md_rule md0) "Target SDK: Marshmallow" = inr meta ∧
    fs' !! key = Some meta.
Proof.
  intros md1 md0 fs'.
  apply (last_record_wins (Demo.world Demo.files) ∅ [] [md1] md0
           "Target SDK: Marshmallow" fs').
  - vm_compute. reflexivity.
  - vm_compute. reflexivity.
Defined.

(** X9 at the two-file scenario. *)
Lemma task_collects_witness :
  let W := Demo.world Demo.files in
  let self := init (Demo.options_of [Demo.sdk_rule] None) in
  let scan_paths := [Demo.a_java; Demo.b_java] in
  let md := {| md_rule := Demo.sdk_rule; md_matches := {[ 0; 1 ]};
               md_all_matches := ∅ |} in
  ([md; md] = [] ↔
     ∀ f, f ∈ scan_paths →
          io_result (file_match W self Demo.sdk_rule f) = inr None) ∧
  Forall (λ md,
     md_rule md = Demo.sdk_rule ∧
     (∀ x, x ∈ md_matches md ↔
           ∃ f rest, f ∈ scan_paths ∧
             io_result (file_match W self Demo.sdk_rule f)
             = inr (Some (MList (x :: rest)))) ∧
     (∀ t, t ∈ md_all_matches md ↔
           ∃ f s, f ∈ scan_paths ∧
             io_result (file_match W self Demo.sdk_rule f)
             = inr (Some (MSet s)) ∧ t ∈ s))
    [md; md].
Proof.
  intros W self scan_paths md.
  apply (task_collects W self Demo.sdk_rule scan_paths [md; md]).
  vm_compute. reflexivity.
Defined.

(** X10 at a file of 16 bytes. *)
Lemma file_within_limit_is_read_witness :
  EvReadText Demo.a_java ∈
    io_trace (choice_matcher (Demo.world Demo.files)
                (init (Demo.options_of [Demo.sdk_rule] None))
                [Demo.a_java] Demo.sdk_rule) ↔
  16 ≤ 5 * 1000 * 1000.
Proof.
  apply (file_within_limit_is_read (Demo.world Demo.files)
           (init (Demo.options_of [Demo.sdk_rule] None)) Demo.sdk_rule
           Demo.a_java 16).
  - reflexivity.
  - reflexivity.
Defined.

(** X12 at the matched index -1 and the two choices of the scenario: the
    last choice is taken. *)
Lemma choice_index_bounds_witness :
  let choice := [PList [PStr "23"; PStr "Marshmallow"];
                 PList [PStr "21"; PStr "Lollipop"]] in
  ∃ entry, choice !! Z.to_nat (Z.of_nat (length choice) + -1) = Some entry ∧
           select_label Demo.sdk_rule {[ -1 ]} = getitem entry 1.
Proof.
  intros choice.
  refine (proj2 (choice_index_bounds Demo.sdk_rule choice {[ -1 ]} (-1) _ _) _).
  - reflexivity.
  - vm_compute. reflexivity.
  - simpl. lia.
Defined.

(** X13 at the rule of the scenario without its message, and a file that
    matches. *)
Lemma rule_without_message_fails_scan_witness :
  io_result (scan (Demo.world Demo.files)
               (init (Demo.options_of [delete "message" Demo.sdk_rule] None))
               [Demo.b_java])
  = inl (Exn KeyError "message").
Proof.
  apply (rule_without_message_fails_scan (Demo.world Demo.files)
           (Demo.options_of [delete "message" Demo.sdk_rule] None)
           (delete "message" Demo.sdk_rule) [Demo.b_java]
           {| md_rule := delete "message" Demo.sdk_rule; md_matches := {[ 0 ]};
              md_all_matches := ∅ |} [] "Target SDK: Marshmallow").
  - reflexivity.
  - eexists. split; [reflexivity|]. intros k Hk.
    repeat (apply elem_of_cons in Hk as [-> |Hk]; [reflexivity|]).
    by apply elem_of_nil in Hk.
  - reflexivity.
  - done.
  - reflexivity.
  - vm_compute. reflexivity.
  - vm_compute. reflexivity.
Defined.

(** X14 at two rules, one of them with a default, and a file that names no
    SDK level. *)
Lemma scan_without_matches_keeps_findings_witness :
  let self := init (Demo.options_of [Demo.sdk_rule_with_else; Demo.sdk_rule]
                      None) in
  ∃ self', io_result (scan (Demo.world Demo.files) self [Demo.c_java])
           = inr (Some (findings self), self') ∧
           findings self' = findings self.
Proof.
  intros self.
  apply (scan_without_matches_keeps_findings (Demo.world Demo.files) self
           [Demo.c_java]).
  - done.
  - done.
  - constructor; [apply Scenarios.sdk_rule_with_else_well_formed|].
    constructor; [apply Scenarios.sdk_rule_well_formed|constructor].
  - intros d f Hd [Hf|Hf]; [|done].
    apply list_elem_of_singleton in Hf as ->.
    change (PDict d ∈ [PDict Demo.sdk_rule_with_else; PDict Demo.sdk_rule])
      in Hd.
    apply elem_of_cons in Hd as [[= ->]|Hd]; [vm_compute; reflexivity|].
    apply list_elem_of_singleton in Hd as [= ->]. vm_compute. reflexivity.
Defined.

(** ** Rules that matched get a finding *)

Section completeness.
Context (E : Externals).

Lemma file_match_some_truthy self (r : rule) f m :
  io_result (file_match E self r f) = inr (Some m) → match_truthy m = true.
Proof.
  unfold file_match. destruct (ext_filtered self _); [done|].
  io_unfold. destruct (fs_stat E f) as [?|sz]; [done|].
  destruct (too_big sz); [done|].
  destruct (fs_read_text E f); [done|]; simpl.
  destruct (if bool_decide _ then _ else _); [done|]; simpl.
  destruct (find_choices _ _ _) as [?|m0]; [done|]; simpl.
  destruct (match_truthy m0) eqn:Hm0; [|done]. by intros [= <-].
Qed.

Lemma selection_of_nonempty md o :
  selection_of E md = inr o →
  md_all_matches md ≠ ∅ ∨ md_matches md ≠ ∅ → is_Some o.
Proof.
  unfold selection_of. intros H Hne.
  destruct (decide (md_all_matches md = ∅)) as [Hall|Hall].
  - destruct Hne as [?|Hm]; [done|].
    rewrite bool_decide_eq_true_2, bool_decide_eq_false_2 in H by done.
    simpl in H.
    apply exn_bind_inv in H as (? & _ & H).
    apply exn_bind_inv in H as (? & _ & H).
    apply exn_bind_inv in H as (? & _ & H). injection H as <-. by eexists.
  - rewrite bool_decide_eq_false_2 in H by done. simpl in H.
    apply exn_bind_inv in H as (? & _ & H).
    apply exn_bind_inv in H as (? & _ & H). injection H as <-. by eexists.
Qed.

Lemma add_match_dict_dom fs md fs' :
  add_match_dict E fs md = inr fs' →
  (∀ k, k ∈ dom fs → k ∈ dom fs') ∧
  (md_all_matches md ≠ ∅ ∨ md_matches md ≠ ∅ →
     ∃ id key, md_rule md !! "id" = Some id ∧ to_key id = inr key ∧
               key ∈ dom fs').
Proof.
  intros [[Hsel ->]|(sel & id & key & meta & Hsel & _ & Hid & Hkey & ->)]%add_match_dict_inv.
  - split; [done|]. intros Hne.
    by destruct (selection_of_nonempty md None Hsel Hne).
  - split.
    + intros k Hk. rewrite dom_insert_L. apply elem_of_union. by right.
    + intros _. exists id, key. repeat (split; [done|]).
      rewrite dom_insert_L. apply elem_of_union. left.
      by apply elem_of_singleton.
Qed.

Lemma add_res_list_dom fs res_list fs' :
  add_res_list E fs res_list = inr fs' →
  (∀ k, k ∈ dom fs → k ∈ dom fs') ∧
  (∀ md, md ∈ res_list →
     md_all_matches md ≠ ∅ ∨ md_matches md ≠ ∅ →
     ∃ id key, md_rule md !! "id" = Some id ∧ to_key id = inr key ∧
               key ∈ dom fs').
Proof.
  revert fs. induction res_list as [|md0 l IH]; intros fs H; simpl in H.
  - injection H as <-. split; [done|]. intros md Hmd.
    by apply elem_of_nil in Hmd.
  - apply exn_bind_inv in H as (fs1 & H1 & H).
    destruct (add_match_dict_dom _ _ _ H1) as [Hd1 Hk1].
    destruct (IH _ H) as [Hd Hk]. split.
    + intros k ?. by apply Hd, Hd1.
    + intros md [-> |Hmd]%elem_of_cons Hne; [|by apply Hk].
      destruct (Hk1 Hne) as (id & key & ? & ? & ?).
      exists id, key. repeat (split; [done|]). by apply Hd.
Qed.

Lemma add_finding_dom fs results fs' :
  add_finding E fs results = inr fs' →
  (∀ k, k ∈ dom fs → k ∈ dom fs') ∧
  (∀ res md, res ∈ results → md ∈ res →
     md_all_matches md ≠ ∅ ∨ md_matches md ≠ ∅ →
     ∃ id key, md_rule md !! "id" = Some id ∧ to_key id = inr key ∧
               key ∈ dom fs').
Proof.
  revert fs. induction results as [|res0 l IH]; intros fs H; simpl in H.
  - injection H as <-. split; [done|]. intros res md Hres.
    by apply elem_of_nil in Hres.
  - destruct res0 as [|md0 res0].
    + destruct (IH _ H) as [Hd Hk]. split; [done|].
      intros res md [-> |Hres]%elem_of_cons Hmd; [|by eapply Hk].
      by apply elem_of_nil in Hmd.
    + apply exn_bind_inv in H as (fs1 & H1 & H).
      destruct (add_res_list_dom _ _ _ H1) as [Hd1 Hk1].
      destruct (IH _ H) as [Hd Hk]. split.
      * intros k ?. by apply Hd, Hd1.
      * intros res md [-> |Hres]%elem_of_cons Hmd Hne; [|by eapply Hk].
        destruct (Hk1 md Hmd Hne) as (id & key & ? & ? & ?).
        exists id, key. repeat (split; [done|]). by apply Hd.
Qed.

(** X15.  With no alternative path configured, when [scan] returns, every
    rule for which the matcher gave a non-empty set or list on some scanned
    file has an entry in the returned mapping under its id. *)
Theorem matched_rule_gets_a_finding self paths fs self' (r : rule) f m :
  io_result (scan E self paths) = inr (Some fs, self') →
  alternative_path self = None →
  PDict r ∈ scan_rules self → f ∈ paths →
  io_result (file_match E self r f) = inr (Some m) →
  (∀ b, m ≠ MOther b) →
  ∃ id key, r !! "id" = Some id ∧ to_key id = inr key ∧ key ∈ dom fs.
Proof.
  intros H Halt Hr Hf Hm Hkind.
  assert (scan_rules self ≠ []) as Hne by (intros Heq; rewrite Heq in Hr;
                                            by apply elem_of_nil in Hr).
  assert (paths ≠ []) as Hpne by (intros ->; by apply elem_of_nil in Hf).
  rewrite scan_result in H by done.
  apply exn_bind_inv in H as (? & _ & H).
  apply exn_bind_inv in H as (choice_args & Hargs & H).
  apply exn_bind_inv in H as (results & Hres & H).
  apply exn_bind_inv in H as (fs0 & Hadd & H).
  injection H as <- _.
  apply build_choice_args_inv in Hargs as [Hrules Hall].
  rewrite Hrules in Hr.
  apply list_elem_of_fmap in Hr as (r' & [= <-] & Hr).
  apply list_elem_of_fmap in Hr as ([sp r'] & Hr' & Ha). simpl in Hr'.
  subst r'.
  rewrite Forall_forall in Hall.
  destruct (Hall _ Ha) as (ty & _ & Hsp). simpl in Hsp.
  rewrite Halt in Hsp.
  assert (sp = paths) as -> by (by destruct (negb _)).
  apply list_elem_of_lookup in Ha as [i Hi].
  apply starmap_inv in Hres.
  destruct (Forall2_lookup_l _ _ _ _ _ Hres Hi) as (res & Hires & Htask).
  simpl in Htask. rewrite choice_matcher_result in Htask.
  destruct (io_result (scan_files _ _ _ _ _)) as [|st] eqn:Hst; [done|].
  injection Htask as <-.
  destruct (scan_files_state E self r _ _ _ Hst) as (Hms & Has & Hrs).
  destruct (st_results st) as [|r0 rs] eqn:Hrs0.
  { destruct (proj1 Hrs eq_refl) as [_ Hnone]. by rewrite (Hnone f Hf) in Hm. }
  pose (md := {| md_rule := r0; md_matches := st_matches st;
                 md_all_matches := st_all_matches st |}).
  assert (md_rule md = r) as Hmdr.
  { apply scan_files_results in Hst; [|constructor].
    rewrite Hrs0 in Hst. by apply Forall_cons in Hst as [? _]. }
  destruct (add_finding_dom _ _ _ Hadd) as [_ Hk].
  rewrite <- Hmdr. apply (Hk (match_dicts st) md).
  - by eapply list_elem_of_lookup_2.
  - unfold match_dicts. rewrite Hrs0. by left.
  - pose proof (file_match_some_truthy _ _ _ _ Hm) as Htruthy.
    destruct m as [s|[|z l]|b]; simpl in Htruthy.
    + left. simpl.
      apply negb_true_iff, bool_decide_eq_false in Htruthy.
      apply set_choose_L in Htruthy as [t Ht].
      apply (non_empty_inhabited_L t), Has. right. by exists f, s.
    + done.
    + right. simpl. apply (non_empty_inhabited_L z), Hms. right.
      by exists f, l.
    + by destruct (Hkind b).
Qed.

End completeness.

(** ** Scanning again *)

Section rescan.
Context (E : Externals).

Lemma add_match_dict_overlay fs md :
  add_match_dict E fs md = add_match_dict E ∅ md ≫= λ w, inr (w ∪ fs).
Proof.
  unfold add_match_dict. destruct (selection_of E md) as [e|[sel|]]; simpl.
  - done.
  - destruct (get_meta (md_rule md) sel); [done|]. simpl.
    destruct (dict_getitem (md_rule md) "id"); [done|]. simpl.
    destruct (to_key _); [done|]. simpl. unfold mret, exn_ret. f_equal.
    by rewrite <- insert_union_l, (left_id_L ∅ (∪)).
  - unfold mret, exn_ret. f_equal. by rewrite (left_id_L ∅ (∪)).
Qed.

Lemma add_res_list_overlay fs res_list :
  add_res_list E fs res_list =
  add_res_list E ∅ res_list ≫= λ w, inr (w ∪ fs).
Proof.
  revert fs. induction res_list as [|md l IH]; intros fs; simpl.
  - unfold mret, exn_ret. f_equal. by rewrite (left_id_L ∅ (∪)).
  - rewrite (add_match_dict_overlay fs).
    destruct (add_match_dict E ∅ md) as [e|w1]; [done|].
    rewrite !exn_bind_inr, (IH (w1 ∪ fs)), (IH w1).
    destruct (add_res_list E ∅ l) as [e|w2]; [done|].
    rewrite !exn_bind_inr. f_equal. by rewrite (assoc_L (∪)).
Qed.

Lemma add_finding_overlay fs results :
  add_finding E fs results =
  add_finding E ∅ results ≫= λ w, inr (w ∪ fs).
Proof.
  revert fs. induction results as [|res l IH]; intros fs; simpl.
  - unfold mret, exn_ret. f_equal. by rewrite (left_id_L ∅ (∪)).
  - destruct res as [|md res]; [apply IH|].
    rewrite (add_res_list_overlay fs).
    destruct (add_res_list E ∅ (md :: res)) as [e|w1]; [done|].
    rewrite !exn_bind_inr, (IH (w1 ∪ fs)), (IH w1).
    destruct (add_finding E ∅ l) as [e|w2]; [done|].
    rewrite !exn_bind_inr. f_equal. by rewrite (assoc_L (∪)).
Qed.

(** X16.  Aggregation overlays: the findings [add_finding] leaves are the
    ones it would store starting from an empty mapping, laid over the
    findings it started with (the new entry wins where both have one). *)
Theorem aggregation_overlays fs results fs' :
  add_finding E fs results = inr fs' →
  ∃ w, add_finding E ∅ results = inr w ∧
       ∀ k, fs' !! k = match w !! k with
                       | Some meta => Some meta
                       | None => fs !! k
                       end.
Proof.
  rewrite add_finding_overlay. intros H.
  apply exn_bind_inv in H as (w & Hw & [= <-]).
  exists w. split; [done|]. intros k. rewrite lookup_union.
  destruct (w !! k), (fs !! k); done.
Qed.

Lemma scan_file_set_findings self fs (r : rule) st sfile :
  scan_file E (set_findings self fs) r st sfile = scan_file E self r st sfile.
Proof. done. Qed.

Lemma scan_files_set_findings self fs (r : rule) st scan_paths :
  scan_files E (set_findings self fs) r st scan_paths =
  scan_files E self r st scan_paths.
Proof.
  revert st. induction scan_paths as [|f l IH]; intros st; [done|].
  simpl. rewrite scan_file_set_findings.
  destruct (scan_file E self r st f) as [t [e|st1]]; [done|].
  io_unfold. by rewrite IH.
Qed.

Lemma mapstar_set_findings self fs choice_args :
  mapstar E (set_findings self fs) choice_args = mapstar E self choice_args.
Proof.
  induction choice_args as [|[sp r] l IH]; [done|].
  cbn [mapstar]. unfold choice_matcher.
  by rewrite scan_files_set_findings, IH.
Qed.

Lemma starmap_set_findings self fs choice_args :
  starmap E (set_findings self fs) choice_args = starmap E self choice_args.
Proof. unfold starmap. by rewrite mapstar_set_findings. Qed.

Lemma build_choice_args_set_findings self fs paths rules :
  build_choice_args (set_findings self fs) paths rules =
  build_choice_args self paths rules.
Proof.
  induction rules as [|[r|v] l IH]; [done| |done].
  simpl. by rewrite IH.
Qed.

End rescan.

(** What a task does, and what aggregation stores for records without
    [all_matches], does not depend on how sets are listed. *)
Lemma file_match_same E E' self (r : rule) sfile :
  same_but_listing E E' →
  file_match E' self r sfile = file_match E self r sfile.
Proof.
  intros (Hst & Hrd & Hs1 & Hs2 & Hfc & _). unfold file_match.
  destruct (ext_filtered self _); [done|].
  rewrite Hst, Hrd. io_unfold.
  destruct (fs_stat E sfile) as [e|sz]; [done|].
  destruct (too_big sz); [done|].
  destruct (fs_read_text E sfile) as [e|data]; [done|]; simpl.
  rewrite Hs1, Hs2.
  destruct (if bool_decide _ then _ else _) as [e|data']; [done|]; simpl.
  by rewrite Hfc.
Qed.

Lemma scan_files_same E E' self (r : rule) st scan_paths :
  same_but_listing E E' →
  scan_files E' self r st scan_paths = scan_files E self r st scan_paths.
Proof.
  intros Hsame. revert st.
  induction scan_paths as [|f l IH]; intros st; [done|].
  simpl. rewrite !scan_file_eq, (file_match_same E E') by done.
  destruct (file_match E self r f) as [t [e|m]]; [done|].
  io_unfold. by rewrite IH.
Qed.

Lemma starmap_same E E' self choice_args :
  same_but_listing E E' →
  starmap E' self choice_args = starmap E self choice_args.
Proof.
  intros Hsame. unfold starmap. f_equal.
  induction choice_args as [|[sp r] l IH]; [done|].
  cbn [mapstar]. unfold choice_matcher.
  by rewrite (scan_files_same E E'), IH.
Qed.

Lemma selection_of_same E E' md :
  same_but_listing E E' → md_all_matches md = ∅ →
  selection_of E' md = selection_of E md.
Proof.
  intros (_ & _ & _ & _ & _ & Hfmt) Hall.
  assert (∀ template arg, py_format E' template arg = py_format E template arg)
    as Hpf.
  { intros [] arg; simpl; first [done|apply Hfmt]. }
  unfold selection_of. cbv zeta.
  rewrite !(bool_decide_eq_true_2 _ Hall). cbn [negb].
  destruct (negb (bool_decide (md_matches md = ∅))).
  - destruct (select_label _ _) as [|select]; [done|]. rewrite !exn_bind_inr.
    destruct (dict_getitem _ _) as [|template]; [done|].
    by rewrite !exn_bind_inr, Hpf.
  - destruct (get_truthy _ _); [|done].
    destruct (dict_getitem (md_rule md) "selection") as [|template]; [done|].
    rewrite !exn_bind_inr.
    destruct (dict_getitem (md_rule md) "else") as [|default]; [done|].
    by rewrite !exn_bind_inr, Hpf.
Qed.

Lemma add_res_list_same E E' fs res_list :
  same_but_listing E E' →
  Forall (λ md, md_all_matches md = ∅) res_list →
  add_res_list E' fs res_list = add_res_list E fs res_list.
Proof.
  intros Hsame Hall. revert fs.
  induction Hall as [|md l Hmd _ IH]; intros fs; [done|].
  cbn [add_res_list]. unfold add_match_dict.
  rewrite (selection_of_same E E') by done.
  destruct (selection_of E md ≫= _) as [e|fs1]; [done|].
  rewrite !exn_bind_inr. apply IH.
Qed.

Lemma add_finding_same E E' fs results :
  same_but_listing E E' →
  Forall (Forall (λ md, md_all_matches md = ∅)) results →
  add_finding E' fs results = add_finding E fs results.
Proof.
  intros Hsame Hall. revert fs.
  induction Hall as [|res l Hres _ IH]; intros fs; [done|].
  cbn [add_finding]. destruct res as [|md res]; [apply IH|].
  rewrite (add_res_list_same E E') by done.
  destruct (add_res_list E fs (md :: res)) as [e|fs1]; [done|].
  rewrite !exn_bind_inr. apply IH.
Qed.

(** When the matcher gives no set for any rule on any scanned file, no
    record has [all_matches]. *)
Lemma results_without_sets E self paths choice_args results :
  build_choice_args self paths (scan_rules self) = inr choice_args →
  io_result (starmap E self choice_args) = inr results →
  (∀ (d : rule) f s, PDict d ∈ scan_rules self →
     f ∈ paths ∨ alternative_path self = Some f →
     io_result (file_match E self d f) ≠ inr (Some (MSet s))) →
  Forall (Forall (λ md, md_all_matches md = ∅)) results.
Proof.
  intros Hargs Hres Hno.
  pose proof (build_choice_args_rules self paths _ _ Hargs) as Hin.
  apply build_choice_args_inv in Hargs as [_ Hall].
  apply starmap_inv in Hres.
  eapply Forall2_Forall_r; [exact Hres|].
  rewrite Forall_forall in Hin, Hall. apply Forall_forall.
  intros [sp r] Ha res Htask. simpl in Htask.
  rewrite choice_matcher_result in Htask.
  destruct (io_result (scan_files _ _ _ _ _)) as [|st] eqn:Hst; [done|].
  injection Htask as <-.
  destruct (scan_files_state E self r _ _ _ Hst) as (_ & Has & _).
  unfold match_dicts. apply Forall_fmap, Forall_true. intros r0. simpl.
  apply elem_of_equiv_empty_L. intros t [Ht|(f & s & Hf & Hm & _)]%Has.
  { by apply not_elem_of_empty in Ht. }
  apply (Hno r f s); [by apply (Hin _ Ha)| |done].
  destruct (Hall _ Ha) as (ty & _ & Hsp). simpl in Hsp. subst sp.
  destruct (negb _), (alternative_path self) as [alt|]; auto.
  apply list_elem_of_singleton in Hf as ->. by right.
Qed.

(** X17.  With progress reporting off, when the matcher gives no set for any
    rule on any scanned file (as for [or] and [and] rules), scanning the
    same paths again with the same matcher, files and pattern matcher gives
    the same result: a [scan] that returned leaves the matcher in a state
    from which the same [scan] returns the same mapping and changes nothing
    more, however sets are listed the second time. *)
Theorem rescan_is_idempotent E E' self paths x self' :
  show_progress self = false →
  same_but_listing E E' →
  (∀ (d : rule) f s, PDict d ∈ scan_rules self →
     f ∈ paths ∨ alternative_path self = Some f →
     io_result (file_match E self d f) ≠ inr (Some (MSet s))) →
  io_result (scan E self paths) = inr (x, self') →
  io_result (scan E' self' paths) = inr (x, self').
Proof.
  intros _ Hsame Hno H.
  destruct (scan_rules self) as [|r0 rules] eqn:Hr.
  { rewrite scan_without_rules_returns_none in H by done.
    injection H as <- <-. by rewrite scan_without_rules_returns_none. }
  destruct paths as [|p0 paths].
  { rewrite scan_eq, Hr in H. injection H as <- <-. by rewrite scan_eq, Hr. }
  rewrite <- Hr in Hno.
  rewrite scan_result in H by (by rewrite ?Hr).
  apply exn_bind_inv in H as ([] & Hval & H).
  apply exn_bind_inv in H as (choice_args & Hargs & H).
  apply exn_bind_inv in H as (results & Hres & H).
  apply exn_bind_inv in H as (fs0 & Hadd & H).
  injection H as <- <-.
  rewrite scan_result by (simpl; by rewrite ?Hr).
  change (scan_rules (set_findings self fs0)) with (scan_rules self).
  change (findings (set_findings self fs0)) with fs0.
  rewrite Hval, exn_bind_inr, build_choice_args_set_findings, Hargs.
  rewrite exn_bind_inr, starmap_set_findings, (starmap_same E E') by done.
  rewrite Hres, exn_bind_inr.
  rewrite (add_finding_same E E')
    by (done || by eapply results_without_sets).
  assert (add_finding E fs0 results = inr fs0) as ->.
  { rewrite add_finding_overlay in Hadd |- *.
    destruct (add_finding E ∅ results) as [e|w]; [done|].
    rewrite exn_bind_inr in Hadd |- *. injection Hadd as <-. f_equal.
    by rewrite (assoc_L (∪)), (idemp_L (∪)). }
  by rewrite exn_bind_inr.
Qed.

(** X15 at the two-file scenario: the rule gets its finding. *)
Lemma matched_rule_gets_a_finding_witness :
  let fs : gmap pykey rule :=
    {[ KStr "sdk" := <["description" := PStr "Target SDK"]>
                       (<["choice" := PStr "Target SDK: Marshmallow"]> ∅) ]} in
  ∃ id key, Demo.sdk_rule !! "id" = Some id ∧ to_key id = inr key ∧
            key ∈ dom fs.
Proof.
  intros fs.
  pose (self := init (Demo.options_of [Demo.sdk_rule] None)).
  apply (matched_rule_gets_a_finding (Demo.world Demo.files) self
           [Demo.a_java; Demo.b_java] fs (set_findings self fs)
           Demo.sdk_rule Demo.b_java (MList [0])).
  - vm_compute. reflexivity.
  - reflexivity.
  - by left.
  - right. by left.
  - vm_compute. reflexivity.
  - done.
Defined.

(** X16 at a finding already stored under another id. *)
Lemma aggregation_overlays_witness :
  let md := {| md_rule := Demo.sdk_rule; md_matches := {[ 0 ]};
               md_all_matches := ∅ |} in
  let meta : rule := <["description" := PStr "Target SDK"]>
                       (<["choice" := PStr "Target SDK: Marshmallow"]> ∅) in
  let fs : gmap pykey rule := {[ KStr "other" := meta ]} in
  let fs' : gmap pykey rule := <[KStr "sdk" := meta]> fs in
  ∃ w, add_finding (Demo.world Demo.files) ∅ [[md]] = inr w ∧
       ∀ k, fs' !! k = match w !! k with
                       | Some meta => Some meta
                       | None => fs !! k
                       end.
Proof.
  intros md meta fs fs'.
  apply (aggregation_overlays (Demo.world Demo.files) fs [[md]] fs').
  vm_compute. reflexivity.
Defined.

(** X17 at the two-file scenario, with sets listed the other way round the
    second time. *)
Lemma rescan_is_idempotent_witness :
  let self := init (Demo.options_of [Demo.sdk_rule] None) in
  let fs : gmap pykey rule :=
    {[ KStr "sdk" := <["description" := PStr "Target SDK"]>
                       (<["choice" := PStr "Target SDK: Marshmallow"]> ∅) ]} in
  io_result (scan (Demo.world_reversed Demo.files) (set_findings self fs)
               [Demo.a_java; Demo.b_java])
  = inr (Some fs, set_findings self fs).
Proof.
  intros self fs.
  apply (rescan_is_idempotent (Demo.world Demo.files)
           (Demo.world_reversed Demo.files) self
           [Demo.a_java; Demo.b_java] (Some fs) (set_findings self fs)).
  - reflexivity.
  - unfold same_but_listing. repeat split; intros; reflexivity.
  - intros d f s Hd Hf.
    change (PDict d ∈ [PDict Demo.sdk_rule]) in Hd.
    apply list_elem_of_singleton in Hd as [= ->].
    destruct Hf as [Hf|Hf]; [|done].
    apply elem_of_cons in Hf as [-> |Hf].
    + assert (io_result (file_match (Demo.world Demo.files) self Demo.sdk_rule
                           Demo.a_java) = inr (Some (MList [1]))) as ->
        by (vm_compute; reflexivity).
      discriminate.
    + apply list_elem_of_singleton in Hf as ->.
      assert (io_result (file_match (Demo.world Demo.files) self Demo.sdk_rule
                           Demo.b_java) = inr (Some (MList [0]))) as ->
        by (vm_compute; reflexivity).
      discriminate.
  - vm_compute. reflexivity.
Defined.
